(** * Botan: XMSS private key and X.509 key constraints

    A shallow embedding of
    - [src/lib/x509/key_constraint.cpp] ([Key_Constraints::compatible_with]),
    - [src/lib/pubkey/xmss/xmss_privatekey.cpp] (construction, parsing and
      serialisation of [XMSS_PrivateKey], [tree_hash], [tree_hash_subtree],
      [create_signature_op]),
    with the properties the specification states about them. *)

From Stdlib Require Import ZArith Lia Bool.
From stdpp Require Import base list strings.

Local Open Scope string_scope.
Local Open Scope list_scope.
Local Open Scope Z_scope.

(** ** Outcomes of a C++ call

    A call returns, throws one of Botan's exceptions, or runs into undefined
    behaviour (an access outside a [std::vector]). *)

Inductive exn : Type :=
| Internal_Error (msg : string)            (* BOTAN_ASSERT *)
| Integrity_Failure (msg : string)
| Provider_Not_Found (algo provider : string).

Inductive outcome (A : Type) : Type :=
| Ret (a : A)
| Throw (e : exn)
| Undefined.

Arguments Ret {A} a.
Arguments Throw {A} e.
Arguments Undefined {A}.

#[global] Instance outcome_ret : MRet outcome := fun A a => Ret a.

#[global] Instance outcome_bind : MBind outcome := fun A B k m =>
  match m with
  | Ret a => k a
  | Throw e => Throw e
  | Undefined => Undefined
  end.

(** [BOTAN_ASSERT(cond, msg)] *)
Definition BOTAN_ASSERT (cond : bool) (msg : string) : outcome unit :=
  if cond then Ret tt else Throw (Internal_Error msg).

Lemma BOTAN_ASSERT_true (msg : string) : BOTAN_ASSERT true msg = Ret tt.
Proof. reflexivity. Qed.

Lemma BOTAN_ASSERT_false (msg : string) :
  BOTAN_ASSERT false msg = Throw (Internal_Error msg).
Proof. reflexivity. Qed.

(** ** X.509 key constraints *)

Module KeyConstraints.
Section Bits.

(** The bits of [Key_Constraints] are declared in [botan/pkix_enums.h],
    which is not among the sources; they are parameters here. *)
Variables DIGITAL_SIGNATURE NON_REPUDIATION KEY_ENCIPHERMENT
          DATA_ENCIPHERMENT KEY_AGREEMENT KEY_CERT_SIGN CRL_SIGN
          ENCIPHER_ONLY DECIPHER_ONLY : Z.

Definition can_agree (name : string) : bool :=
  String.eqb name "DH" || String.eqb name "ECDH" || String.prefix "Kyber-" name.

Definition can_encrypt (name : string) : bool :=
  String.eqb name "RSA" || String.eqb name "ElGamal" || String.prefix "Kyber-" name.

Definition can_sign (name : string) : bool :=
  String.eqb name "RSA" || String.eqb name "DSA" ||
  String.eqb name "ECDSA" || String.eqb name "ECGDSA" ||
  String.eqb name "ECKCDSA" || String.eqb name "Ed25519" ||
  String.eqb name "GOST-34.10" || String.eqb name "GOST-34.10-2012-256" ||
  String.eqb name "GOST-34.10-2012-512" ||
  String.prefix "Dilithium-" name.

Definition agreement_bits : Z :=
  Z.lor (Z.lor KEY_AGREEMENT ENCIPHER_ONLY) DECIPHER_ONLY.

Definition encipherment_bits : Z :=
  Z.lor KEY_ENCIPHERMENT DATA_ENCIPHERMENT.

Definition signature_bits : Z :=
  Z.lor (Z.lor (Z.lor DIGITAL_SIGNATURE NON_REPUDIATION) KEY_CERT_SIGN) CRL_SIGN.

(** The local [permitted] of [compatible_with], after its three updates. *)
Definition permitted (name : string) : Z :=
  let permitted := 0 in
  let permitted :=
    if can_agree name then Z.lor permitted agreement_bits else permitted in
  let permitted :=
    if can_encrypt name then Z.lor permitted encipherment_bits else permitted in
  let permitted :=
    if can_sign name then Z.lor permitted signature_bits else permitted in
  permitted.

(** [Key_Constraints::compatible_with]; the public key is used through
    [algo_name()] only. *)
Definition compatible_with (m_value : Z) (name : string) : bool :=
  if negb (Z.land m_value (permitted name) =? m_value)
  then false
  else true.

Lemma land_eq_iff_bits (m p : Z) :
  Z.land m p = m <->
  forall n, 0 <= n -> Z.testbit m n = true -> Z.testbit p n = true.
Proof.
  split.
  - intros Heq n Hn Hm. rewrite <- Heq in Hm.
    rewrite Z.land_spec in Hm. apply andb_true_iff in Hm. tauto.
  - intros Hsub. apply Z.bits_inj'. intros n Hn.
    rewrite Z.land_spec. specialize (Hsub n Hn).
    destruct (Z.testbit m n); simpl; auto.
Qed.

Lemma permitted_bits (name : string) (n : Z) :
  Z.testbit (permitted name) n =
  (can_agree name && Z.testbit agreement_bits n)
  || (can_encrypt name && Z.testbit encipherment_bits n)
  || (can_sign name && Z.testbit signature_bits n).
Proof.
  unfold permitted.
  destruct (can_agree name), (can_encrypt name), (can_sign name);
    rewrite ?Z.lor_spec, ?Z.bits_0; simpl;
    rewrite ?orb_false_r; reflexivity.
Qed.

(** C10: [compatible_with] answers true exactly when every set bit of the
    constraint value lies in the permitted mask of the key's algorithm
    name, the mask being the union of the agreement, encipherment and
    signature bits the name qualifies for; a constraint value without set
    bits is compatible with every key. *)
Theorem compatible_with_iff_bits_permitted (m_value : Z) (name : string) :
  (compatible_with m_value name = true <->
   forall n, 0 <= n -> Z.testbit m_value n = true ->
     (can_agree name && Z.testbit agreement_bits n)
     || (can_encrypt name && Z.testbit encipherment_bits n)
     || (can_sign name && Z.testbit signature_bits n) = true)
  /\ compatible_with 0 name = true.
Proof.
  split.
  - unfold compatible_with.
    destruct (Z.eqb_spec (Z.land m_value (permitted name)) m_value) as [He|Hne];
      simpl.
    + split; [intros _ | reflexivity].
      intros n Hn Hm. rewrite <- permitted_bits.
      apply (proj1 (land_eq_iff_bits _ _) He n Hn Hm).
    + split; [discriminate|]. intros Hsub. exfalso. apply Hne.
      apply land_eq_iff_bits. intros n Hn Hm.
      rewrite permitted_bits. auto.
  - unfold compatible_with. rewrite Z.land_0_l. reflexivity.
Qed.

(** *** More on [compatible_with] *)

(** X11: the constraint values a key is compatible with are closed under
    union and under taking away bits: when [m1] and [m2] are compatible
    with a key, so is every value whose bits lie in [m1 | m2]. *)
Theorem compatible_with_union_closed (m1 m2 m : Z) (name : string) :
  compatible_with m1 name = true ->
  compatible_with m2 name = true ->
  Z.land m (Z.lor m1 m2) = m ->
  compatible_with m name = true.
Proof.
  unfold compatible_with. intros H1 H2 Hm.
  destruct (Z.eqb_spec (Z.land m1 (permitted name)) m1) as [E1|]; [|discriminate].
  destruct (Z.eqb_spec (Z.land m2 (permitted name)) m2) as [E2|]; [|discriminate].
  assert (E : Z.land m (permitted name) = m).
  { apply land_eq_iff_bits. intros n Hn Hb.
    apply (proj1 (land_eq_iff_bits _ _) Hm n Hn) in Hb.
    rewrite Z.lor_spec in Hb. apply orb_true_iff in Hb as [Hb|Hb].
    - apply (proj1 (land_eq_iff_bits _ _) E1 n Hn Hb).
    - apply (proj1 (land_eq_iff_bits _ _) E2 n Hn Hb). }
  apply Z.eqb_eq in E. rewrite E. reflexivity.
Qed.

(** X12: a key whose algorithm is none of the listed ones may neither
    agree, encrypt nor sign, and the only constraint value compatible with
    it is the one without bits. *)
Theorem compatible_with_unlisted_algorithm (m_value : Z) (name : string) :
  can_agree name = false ->
  can_encrypt name = false ->
  can_sign name = false ->
  (compatible_with m_value name = true <-> m_value = 0).
Proof.
  intros Ha He Hs. unfold compatible_with, permitted.
  rewrite Ha, He, Hs. cbn zeta. rewrite Z.land_0_r.
  destruct (Z.eqb_spec 0 m_value) as [E|E]; simpl.
  - split; auto.
  - split; [discriminate|]. intros ->. contradiction.
Qed.

(** *** [to_string] *)

(** [Key_Constraints::NO_CONSTRAINTS], declared in botan/pkix_enums.h
    like the bits. *)
Variable NO_CONSTRAINTS : Z.

(** [Key_Constraints::to_string] *)
Definition to_string (m_value : Z) : string :=
  if m_value =? NO_CONSTRAINTS then "no_constraints"
  else
    let str := [] in
    let str := if negb (Z.land m_value DIGITAL_SIGNATURE =? 0)
               then str ++ ["digital_signature"] else str in
    let str := if negb (Z.land m_value NON_REPUDIATION =? 0)
               then str ++ ["non_repudiation"] else str in
    let str := if negb (Z.land m_value KEY_ENCIPHERMENT =? 0)
               then str ++ ["key_encipherment"] else str in
    let str := if negb (Z.land m_value DATA_ENCIPHERMENT =? 0)
               then str ++ ["data_encipherment"] else str in
    let str := if negb (Z.land m_value KEY_AGREEMENT =? 0)
               then str ++ ["key_agreement"] else str in
    let str := if negb (Z.land m_value KEY_CERT_SIGN =? 0)
               then str ++ ["key_cert_sign"] else str in
    let str := if negb (Z.land m_value CRL_SIGN =? 0)
               then str ++ ["crl_sign"] else str in
    let str := if negb (Z.land m_value ENCIPHER_ONLY =? 0)
               then str ++ ["encipher_only"] else str in
    let str := if negb (Z.land m_value DECIPHER_ONLY =? 0)
               then str ++ ["decipher_only"] else str in
    if (length str =? 0)%nat then "other_unknown_constraints"
    else if (length str =? 1)%nat then nth 0 str ""
    else
      let out :=
        fold_left (fun out i => String.append (String.append out (nth i str "")) ",")
                  (seq 0 (length str - 1)) "" in
      String.append out (nth (length str - 1) str "").

(** The named bits, in the order [to_string] tests them. *)
Definition named_bits : list (Z * string) :=
  [ (DIGITAL_SIGNATURE, "digital_signature");
    (NON_REPUDIATION, "non_repudiation");
    (KEY_ENCIPHERMENT, "key_encipherment");
    (DATA_ENCIPHERMENT, "data_encipherment");
    (KEY_AGREEMENT, "key_agreement");
    (KEY_CERT_SIGN, "key_cert_sign");
    (CRL_SIGN, "crl_sign");
    (ENCIPHER_ONLY, "encipher_only");
    (DECIPHER_ONLY, "decipher_only") ].

(** The names of the entries of a table whose bit is set in [m_value]. *)
Definition names_in (m_value : Z) (table : list (Z * string)) : list string :=
  map snd (List.filter (fun p => negb (Z.land m_value (fst p) =? 0)) table).

(** The names of the named bits that are set in [m_value]. *)
Definition constraint_names (m_value : Z) : list string :=
  names_in m_value named_bits.

(** The vector [str] of [to_string] after its nine tests. *)
Definition constraint_list (m_value : Z) : list string :=
  let str := [] in
  let str := if negb (Z.land m_value DIGITAL_SIGNATURE =? 0)
             then str ++ ["digital_signature"] else str in
  let str := if negb (Z.land m_value NON_REPUDIATION =? 0)
             then str ++ ["non_repudiation"] else str in
  let str := if negb (Z.land m_value KEY_ENCIPHERMENT =? 0)
             then str ++ ["key_encipherment"] else str in
  let str := if negb (Z.land m_value DATA_ENCIPHERMENT =? 0)
             then str ++ ["data_encipherment"] else str in
  let str := if negb (Z.land m_value KEY_AGREEMENT =? 0)
             then str ++ ["key_agreement"] else str in
  let str := if negb (Z.land m_value KEY_CERT_SIGN =? 0)
             then str ++ ["key_cert_sign"] else str in
  let str := if negb (Z.land m_value CRL_SIGN =? 0)
             then str ++ ["crl_sign"] else str in
  let str := if negb (Z.land m_value ENCIPHER_ONLY =? 0)
             then str ++ ["encipher_only"] else str in
  let str := if negb (Z.land m_value DECIPHER_ONLY =? 0)
             then str ++ ["decipher_only"] else str in
  str.

(** What [to_string] makes of [str]. *)
Definition join (str : list string) : string :=
  if (length str =? 0)%nat then "other_unknown_constraints"
  else if (length str =? 1)%nat then nth 0 str ""
  else
    let out :=
      fold_left (fun out i => String.append (String.append out (nth i str "")) ",")
                (seq 0 (length str - 1)) "" in
    String.append out (nth (length str - 1) str "").

Lemma to_string_join (m_value : Z) :
  to_string m_value =
  if m_value =? NO_CONSTRAINTS then "no_constraints"
  else join (constraint_list m_value).
Proof. reflexivity. Qed.

Lemma names_in_snoc (m_value : Z) (table : list (Z * string)) (bit : Z) (name : string) :
  names_in m_value (table ++ [(bit, name)]) =
  if negb (Z.land m_value bit =? 0)
  then names_in m_value table ++ [name]
  else names_in m_value table.
Proof.
  unfold names_in. rewrite List.filter_app, map_app. cbn [List.filter fst].
  destruct (negb (Z.land m_value bit =? 0)); cbn [map snd].
  - reflexivity.
  - apply app_nil_r.
Qed.

Lemma constraint_list_names (m_value : Z) :
  constraint_list m_value = constraint_names m_value.
Proof.
  unfold constraint_names, named_bits.
  pose (s0 := names_in m_value []).
  pose (s1 := if negb (Z.land m_value DIGITAL_SIGNATURE =? 0)
              then s0 ++ ["digital_signature"] else s0).
  pose (s2 := if negb (Z.land m_value NON_REPUDIATION =? 0)
              then s1 ++ ["non_repudiation"] else s1).
  pose (s3 := if negb (Z.land m_value KEY_ENCIPHERMENT =? 0)
              then s2 ++ ["key_encipherment"] else s2).
  pose (s4 := if negb (Z.land m_value DATA_ENCIPHERMENT =? 0)
              then s3 ++ ["data_encipherment"] else s3).
  pose (s5 := if negb (Z.land m_value KEY_AGREEMENT =? 0)
              then s4 ++ ["key_agreement"] else s4).
  pose (s6 := if negb (Z.land m_value KEY_CERT_SIGN =? 0)
              then s5 ++ ["key_cert_sign"] else s5).
  pose (s7 := if negb (Z.land m_value CRL_SIGN =? 0)
              then s6 ++ ["crl_sign"] else s6).
  pose (s8 := if negb (Z.land m_value ENCIPHER_ONLY =? 0)
              then s7 ++ ["encipher_only"] else s7).
  pose (s9 := if negb (Z.land m_value DECIPHER_ONLY =? 0)
              then s8 ++ ["decipher_only"] else s8).
  change (constraint_list m_value) with s9.
  assert (E1 : s1 = names_in m_value ([] ++ [(DIGITAL_SIGNATURE, "digital_signature")]))
    by (rewrite names_in_snoc; reflexivity).
  assert (E2 : s2 = names_in m_value
                      ([(DIGITAL_SIGNATURE, "digital_signature")]
                       ++ [(NON_REPUDIATION, "non_repudiation")]))
    by (rewrite names_in_snoc; subst s2; rewrite E1; reflexivity).
  cbn [app] in E2.
  assert (E3 : s3 = names_in m_value (_ ++ [(KEY_ENCIPHERMENT, "key_encipherment")]))
    by (rewrite names_in_snoc; subst s3; rewrite E2; reflexivity).
  cbn [app] in E3.
  assert (E4 : s4 = names_in m_value (_ ++ [(DATA_ENCIPHERMENT, "data_encipherment")]))
    by (rewrite names_in_snoc; subst s4; rewrite E3; reflexivity).
  cbn [app] in E4.
  assert (E5 : s5 = names_in m_value (_ ++ [(KEY_AGREEMENT, "key_agreement")]))
    by (rewrite names_in_snoc; subst s5; rewrite E4; reflexivity).
  cbn [app] in E5.
  assert (E6 : s6 = names_in m_value (_ ++ [(KEY_CERT_SIGN, "key_cert_sign")]))
    by (rewrite names_in_snoc; subst s6; rewrite E5; reflexivity).
  cbn [app] in E6.
  assert (E7 : s7 = names_in m_value (_ ++ [(CRL_SIGN, "crl_sign")]))
    by (rewrite names_in_snoc; subst s7; rewrite E6; reflexivity).
  cbn [app] in E7.
  assert (E8 : s8 = names_in m_value (_ ++ [(ENCIPHER_ONLY, "encipher_only")]))
    by (rewrite names_in_snoc; subst s8; rewrite E7; reflexivity).
  cbn [app] in E8.
  assert (E9 : s9 = names_in m_value (_ ++ [(DECIPHER_ONLY, "decipher_only")]))
    by (rewrite names_in_snoc; subst s9; rewrite E8; reflexivity).
  cbn [app] in E9. exact E9.
Qed.

Lemma append_assoc (s1 s2 s3 : string) :
  String.append (String.append s1 s2) s3 = String.append s1 (String.append s2 s3).
Proof.
  induction s1 as [|c s1 IH]; [reflexivity|].
  change (String c (String.append (String.append s1 s2) s3)
          = String c (String.append s1 (String.append s2 s3))).
  rewrite IH. reflexivity.
Qed.

Lemma append_empty_r (s : string) : String.append s "" = s.
Proof.
  induction s as [|c s IH]; [reflexivity|].
  change (String c (String.append s "") = String c s).
  rewrite IH. reflexivity.
Qed.

(** Every string followed by a comma. *)
Definition with_commas (l : list string) : string :=
  fold_right (fun s acc => String.append s (String.append "," acc)) "" l.

Lemma with_commas_snoc (l : list string) (x : string) :
  with_commas (l ++ [x]) = String.append (with_commas l) (String.append x ",").
Proof.
  induction l as [|y l IH]; simpl.
  - reflexivity.
  - rewrite IH, !append_assoc. reflexivity.
Qed.

Lemma concat_snoc (l : list string) (z : string) :
  l <> [] -> String.concat "," (l ++ [z]) = String.append (with_commas l) z.
Proof.
  induction l as [|x l IH]; intros Hne; [contradiction|].
  destruct l as [|y l].
  - simpl. rewrite append_assoc. reflexivity.
  - change (String.concat "," ((x :: y :: l) ++ [z]))
      with (String.append x (String.append "," (String.concat "," ((y :: l) ++ [z])))).
    rewrite IH by discriminate.
    change (with_commas (x :: y :: l))
      with (String.append x (String.append "," (with_commas (y :: l)))).
    rewrite !append_assoc. reflexivity.
Qed.

Lemma join_loop (str : list string) (k : nat) :
  (k <= length str)%nat ->
  forall acc,
    fold_left (fun out i => String.append (String.append out (nth i str "")) ",")
              (seq 0 k) acc
    = String.append acc (with_commas (take k str)).
Proof.
  induction k as [|k IH]; intros Hk acc.
  - rewrite take_0. exact (eq_sym (append_empty_r acc)).
  - rewrite seq_S, fold_left_app, IH by lia. simpl.
    destruct (lookup_lt_is_Some_2 str k ltac:(lia)) as [x Hx].
    rewrite (take_S_r _ _ _ Hx), with_commas_snoc.
    rewrite (nth_lookup_Some _ _ _ _ Hx), !append_assoc. reflexivity.
Qed.

(** The loop of [to_string] joins the names with single commas. *)
Lemma join_concat (str : list string) :
  join str = match str with
             | [] => "other_unknown_constraints"
             | _ => String.concat "," str
             end.
Proof.
  destruct str as [|x [|y rest]]; [reflexivity|reflexivity|].
  transitivity (String.concat "," (x :: y :: rest)); [|reflexivity].
  remember (x :: y :: rest) as str eqn:Hstr.
  assert (Hlen : (2 <= length str)%nat) by (subst str; simpl; lia).
  clear Hstr. unfold join.
  destruct (Nat.eqb_spec (length str) 0); [lia|].
  destruct (Nat.eqb_spec (length str) 1); [lia|].
  cbv zeta. rewrite join_loop by lia.
  destruct (lookup_lt_is_Some_2 str (length str - 1)) as [z Hz]; [lia|].
  rewrite (nth_lookup_Some _ _ _ _ Hz).
  transitivity (String.append (with_commas (take (length str - 1) str)) z);
    [reflexivity|].
  rewrite <- concat_snoc.
  - rewrite <- (take_S_r _ _ _ Hz).
    replace (S (length str - 1)) with (length str) by lia.
    rewrite take_ge by lia. reflexivity.
  - intros E. apply (f_equal length) in E. rewrite length_take in E.
    simpl in E. lia.
Qed.

(** X13: [to_string] gives "no_constraints" for [NO_CONSTRAINTS],
    "other_unknown_constraints" for another value without a named bit, and
    otherwise the names of the named bits that are set, in the order of the
    tests, separated by single commas. *)
Theorem to_string_names (m_value : Z) :
  to_string m_value =
  if m_value =? NO_CONSTRAINTS then "no_constraints"
  else match constraint_names m_value with
       | [] => "other_unknown_constraints"
       | names => String.concat "," names
       end.
Proof.
  rewrite to_string_join, constraint_list_names, join_concat.
  destruct (constraint_names m_value); reflexivity.
Qed.

(** The names of [named_bits], in the order of the tests. *)
Definition constraint_name_table : list string :=
  [ "digital_signature"; "non_repudiation"; "key_encipherment";
    "data_encipherment"; "key_agreement"; "key_cert_sign"; "crl_sign";
    "encipher_only"; "decipher_only" ].

(** The names selected by a list of test results. *)
Fixpoint pick (fl : list bool) (names : list string) : list string :=
  match fl, names with
  | b :: fl, n :: names => if b then n :: pick fl names else pick fl names
  | _, _ => []
  end.

(** The results of the nine tests of [to_string]. *)
Definition bit_flags (m_value : Z) : list bool :=
  map (fun p => negb (Z.land m_value (fst p) =? 0)) named_bits.

(** What [to_string] returns for a list of names. *)
Definition text (names : list string) : string :=
  match names with
  | [] => "other_unknown_constraints"
  | _ => String.concat "," names
  end.

Fixpoint all_flags (n : nat) : list (list bool) :=
  match n with
  | O => [[]]
  | S n => map (cons true) (all_flags n) ++ map (cons false) (all_flags n)
  end.

Fixpoint flags_eqb (a b : list bool) : bool :=
  match a, b with
  | [], [] => true
  | x :: a, y :: b => Bool.eqb x y && flags_eqb a b
  | _, _ => false
  end.

(** Every outcome of the nine tests with its text. *)
Definition all_texts : list (list bool * string) :=
  map (fun fl => (fl, text (pick fl constraint_name_table))) (all_flags 9).

(** No two entries have the same text, and no text is "no_constraints". *)
Definition distinct_in (texts : list (list bool * string)) : bool :=
  forallb (fun a =>
    negb (String.eqb (snd a) "no_constraints") &&
    forallb (fun b => implb (String.eqb (snd a) (snd b))
                            (flags_eqb (fst a) (fst b))) texts) texts.

Lemma texts_distinct_true : distinct_in all_texts = true.
Proof. vm_compute. reflexivity. Qed.

Lemma flags_eqb_eq (a b : list bool) : flags_eqb a b = true -> a = b.
Proof.
  revert b. induction a as [|x a IH]; intros [|y b] H; simpl in H;
    try discriminate H; [reflexivity|].
  apply andb_true_iff in H. destruct H as [H1 H2].
  apply Bool.eqb_prop in H1. rewrite H1, (IH _ H2). reflexivity.
Qed.

Lemma all_flags_complete (fl : list bool) : In fl (all_flags (length fl)).
Proof.
  induction fl as [|b fl IH]; simpl; [left; reflexivity|].
  apply in_or_app. destruct b; [left|right]; apply in_map; exact IH.
Qed.

Lemma names_in_pick (m_value : Z) (table : list (Z * string)) :
  names_in m_value table
  = pick (map (fun p => negb (Z.land m_value (fst p) =? 0)) table)
         (map snd table).
Proof.
  unfold names_in. induction table as [|p table IH]; [reflexivity|].
  simpl. destruct (negb (Z.land m_value (fst p) =? 0)); simpl; rewrite IH;
    reflexivity.
Qed.

Lemma constraint_names_pick (m_value : Z) :
  constraint_names m_value = pick (bit_flags m_value) constraint_name_table.
Proof. unfold constraint_names. rewrite names_in_pick. reflexivity. Qed.

Lemma distinct_in_spec (texts : list (list bool * string)) :
  distinct_in texts = true ->
  forall a, In a texts ->
    snd a <> "no_constraints" /\
    forall b, In b texts -> snd a = snd b -> fst a = fst b.
Proof.
  unfold distinct_in. intros H a Ha. rewrite forallb_forall in H.
  specialize (H a Ha). apply andb_true_iff in H. destruct H as [H1 H2].
  split.
  - intros E. rewrite E in H1. discriminate H1.
  - intros b Hb E. rewrite forallb_forall in H2. specialize (H2 b Hb).
    rewrite E, String.eqb_refl in H2. apply flags_eqb_eq. exact H2.
Qed.

Lemma in_all_texts (fl : list bool) :
  length fl = 9%nat -> In (fl, text (pick fl constraint_name_table)) all_texts.
Proof.
  intros Hfl. unfold all_texts.
  apply (in_map (fun fl => (fl, text (pick fl constraint_name_table)))).
  rewrite <- Hfl. apply all_flags_complete.
Qed.

Lemma text_of_flags (fl : list bool) :
  length fl = 9%nat ->
  text (pick fl constraint_name_table) <> "no_constraints" /\
  forall fl', length fl' = 9%nat ->
    text (pick fl constraint_name_table) = text (pick fl' constraint_name_table) ->
    fl = fl'.
Proof.
  intros Hfl.
  destruct (distinct_in_spec all_texts texts_distinct_true _ (in_all_texts fl Hfl))
    as [H1 H2].
  split; [exact H1|].
  intros fl' Hfl' E. exact (H2 _ (in_all_texts fl' Hfl') E).
Qed.

Lemma to_string_text (m_value : Z) :
  to_string m_value =
  if m_value =? NO_CONSTRAINTS then "no_constraints"
  else text (constraint_names m_value).
Proof.
  rewrite to_string_join, constraint_list_names, join_concat.
  destruct (constraint_names m_value); reflexivity.
Qed.

(** X14: the text of [to_string] determines which named bits are set: two
    values with the same text are both [NO_CONSTRAINTS] or neither is, and
    then they have the same named bits set. *)
Theorem to_string_determines_names (m_value m_value' : Z) :
  to_string m_value = to_string m_value' ->
  (m_value = NO_CONSTRAINTS <-> m_value' = NO_CONSTRAINTS) /\
  (m_value <> NO_CONSTRAINTS -> constraint_names m_value = constraint_names m_value').
Proof.
  rewrite !to_string_text, !constraint_names_pick.
  assert (L : forall m, length (bit_flags m) = 9%nat) by reflexivity.
  destruct (text_of_flags _ (L m_value)) as [N1 I1].
  destruct (text_of_flags _ (L m_value')) as [N2 _].
  destruct (Z.eqb_spec m_value NO_CONSTRAINTS) as [E1|E1];
    destruct (Z.eqb_spec m_value' NO_CONSTRAINTS) as [E2|E2]; intros H.
  - split; [tauto|]. intros C. contradiction.
  - symmetry in H. contradiction.
  - contradiction.
  - split; [tauto|]. intros _. rewrite (I1 _ (L m_value') H). reflexivity.
Qed.

End Bits.

(** The bit values of RFC 5280's KeyUsage as Botan numbers them. *)
Definition x509_compatible_with : Z -> string -> bool :=
  compatible_with (2^15) (2^14) (2^13) (2^12) (2^11) (2^10) (2^9) (2^8) (2^7).

Example rsa_may_sign_and_encipher :
  x509_compatible_with (2^15 + 2^13) "RSA" = true.
Proof. reflexivity. Qed.

Example ecdsa_may_not_agree :
  x509_compatible_with (2^11) "ECDSA" = false.
Proof. reflexivity. Qed.

Example kyber_prefix_may_agree :
  x509_compatible_with (2^11 + 2^12) "Kyber-768-r3" = true.
Proof. reflexivity. Qed.

Example unknown_algorithm_only_empty :
  x509_compatible_with 0 "XMSS" = true /\ x509_compatible_with (2^15) "XMSS" = false.
Proof. split; reflexivity. Qed.

(** RFC 5280's bit values again, with [NO_CONSTRAINTS = 0]. *)
Definition x509_to_string : Z -> string :=
  to_string (2^15) (2^14) (2^13) (2^12) (2^11) (2^10) (2^9) (2^8) (2^7) 0.

Example to_string_of_two_bits :
  x509_to_string (2^15 + 2^10) = "digital_signature,key_cert_sign".
Proof. reflexivity. Qed.

Example to_string_of_unnamed_bit :
  x509_to_string 1 = "other_unknown_constraints" /\
  x509_to_string 0 = "no_constraints".
Proof. split; reflexivity. Qed.

Lemma compatible_with_union_closed_witness :
  x509_compatible_with (2^15 + 2^12) "RSA" = true.
Proof.
  apply (compatible_with_union_closed (2^15) (2^14) (2^13) (2^12) (2^11) (2^10)
           (2^9) (2^8) (2^7) (2^15 + 2^10) (2^13 + 2^12) (2^15 + 2^12) "RSA");
    reflexivity.
Defined.

Lemma compatible_with_unlisted_algorithm_witness :
  x509_compatible_with (2^15) "XMSS" = true <-> 2^15 = 0.
Proof.
  apply (compatible_with_unlisted_algorithm (2^15) (2^14) (2^13) (2^12) (2^11)
           (2^10) (2^9) (2^8) (2^7) (2^15) "XMSS"); reflexivity.
Defined.

Lemma to_string_determines_names_witness :
  (2^15 + 1 = 0 <-> 2^15 = 0) /\
  (2^15 + 1 <> 0 ->
   constraint_names (2^15) (2^14) (2^13) (2^12) (2^11) (2^10) (2^9) (2^8) (2^7)
     (2^15 + 1)
   = constraint_names (2^15) (2^14) (2^13) (2^12) (2^11) (2^10) (2^9) (2^8) (2^7)
       (2^15)).
Proof.
  apply (to_string_determines_names (2^15) (2^14) (2^13) (2^12) (2^11) (2^10)
           (2^9) (2^8) (2^7) 0 (2^15 + 1) (2^15)).
  reflexivity.
Defined.

End KeyConstraints.

(** ** XMSS private key *)

Module XMSS.

Abbreviation bytes := (list Byte.byte).

(** *** Fixed-width integers *)

Definition u8 (x : nat) : nat := (x mod 256)%nat.
Definition u32 (x : Z) : Z := x mod 2 ^ 32.
Definition u64 (x : Z) : Z := x mod 2 ^ 64.

#[global] Arguments u8 : simpl never.
#[global] Arguments u32 : simpl never.
#[global] Arguments u64 : simpl never.

(** [static_cast<uint8_t>(x)] *)
Definition uint8_of_Z (x : Z) : Byte.byte :=
  match Byte.of_N (Z.to_N (x mod 256)) with
  | Some b => b
  | None => Byte.x00
  end.

Definition Z_of_uint8 (b : Byte.byte) : Z := Z.of_N (Byte.to_N b).

(** [1 << n] on a 32-bit [int]: the value congruent to [2^n] modulo
    [2^32], so [1 << 31] is [INT_MIN]; a shift by the width of the type or
    more is undefined. *)
Definition shl_int (n : nat) : outcome Z :=
  if (n <=? 30)%nat then Ret (2 ^ Z.of_nat n)
  else if (n =? 31)%nat then Ret (- 2 ^ 31)
  else Undefined.

(** [1ull << n]; a shift by the width of the type or more is undefined. *)
Definition shl_ull (n : Z) : outcome Z :=
  if (0 <=? n) && (n <? 64) then Ret (2 ^ n) else Undefined.

(** [v[i]] and [v[i] = x] with an index of an unsigned type. *)
Definition at_ {A : Type} (v : list A) (i : nat) : outcome A :=
  match v !! i with
  | Some a => Ret a
  | None => Undefined
  end.

Definition put {A : Type} (v : list A) (i : nat) (x : A) : outcome (list A) :=
  if (i <? length v)%nat then Ret (<[i := x]> v) else Undefined.

(** The range [[v.begin() + b, v.begin() + e)] of a vector. *)
Definition slice {A : Type} (v : list A) (b e : Z) : outcome (list A) :=
  if (0 <=? b) && (b <=? e) && (e <=? Z.of_nat (length v))
  then Ret (take (Z.to_nat (e - b)) (drop (Z.to_nat b) v))
  else Undefined.

(** [for(size_t i = first; i < first + n; i++) body], threading the state. *)
Fixpoint for_loop {S : Type} (body : nat -> S -> outcome S)
    (i n : nat) (s : S) : outcome S :=
  match n with
  | O => Ret s
  | Datatypes.S n' => s' ← body i s; for_loop body (Datatypes.S i) n' s'
  end.

(** *** Addresses *)

Inductive Address_Type : Type :=
| OTS_Hash_Address
| LTree_Address
| Hash_Tree_Address.

(** Modelled from the spec: the class [XMSS_Address] (botan/xmss_address.h) is
    not among the sources.  It is a value type holding the address type, the
    tree height and tree index, the OTS address and the L-tree address, with
    one getter and one setter per field; the setters take [uint32_t].  The
    further sub-indices (chain, hash, key and mask) are written and read by
    the hash collaborators only. *)
Record XMSS_Address : Type := mkAddress {
  get_type : Address_Type;
  get_ots_address : Z;
  get_ltree_address : Z;
  get_tree_height : Z;
  get_tree_index : Z
}.

Definition set_type (t : Address_Type) (a : XMSS_Address) : XMSS_Address :=
  mkAddress t (get_ots_address a) (get_ltree_address a)
            (get_tree_height a) (get_tree_index a).

Definition set_ots_address (v : Z) (a : XMSS_Address) : XMSS_Address :=
  mkAddress (get_type a) (u32 v) (get_ltree_address a)
            (get_tree_height a) (get_tree_index a).

Definition set_ltree_address (v : Z) (a : XMSS_Address) : XMSS_Address :=
  mkAddress (get_type a) (get_ots_address a) (u32 v)
            (get_tree_height a) (get_tree_index a).

Definition set_tree_height (v : Z) (a : XMSS_Address) : XMSS_Address :=
  mkAddress (get_type a) (get_ots_address a) (get_ltree_address a)
            (u32 v) (get_tree_index a).

Definition set_tree_index (v : Z) (a : XMSS_Address) : XMSS_Address :=
  mkAddress (get_type a) (get_ots_address a) (get_ltree_address a)
            (get_tree_height a) (u32 v).

(** [XMSS_Address adrs;] *)
Definition default_address : XMSS_Address :=
  mkAddress OTS_Hash_Address 0 0 0 0.

(** [(adrs.get_tree_index() - 1) >> 1] on [uint32_t] *)
Definition parent_index (child_index : Z) : Z :=
  Z.shiftr (u32 (child_index - 1)) 1.

#[global] Arguments parent_index : simpl never.

(** *** Keys *)

Record XMSS_Parameters : Type := mkParameters {
  oid : Z;
  tree_height : Z;
  element_size : Z
}.

Record XMSS_WOTS_Parameters : Type := mkWOTSParameters {
  wots_oid : Z;
  wots_element_size : Z
}.

Record XMSS_PublicKey : Type := mkPublicKey {
  m_xmss_params : XMSS_Parameters;
  m_wots_params : XMSS_WOTS_Parameters;
  m_root : bytes;
  m_public_seed : bytes
}.

Definition set_root (root : bytes) (pk : XMSS_PublicKey) : XMSS_PublicKey :=
  mkPublicKey (m_xmss_params pk) (m_wots_params pk) root (m_public_seed pk).

Record XMSS_WOTS_PrivateKey : Type := mkWOTSPrivateKey {
  wots_key_oid : Z;
  wots_public_seed : bytes;
  private_seed : bytes
}.

Definition set_private_seed (s : bytes) (k : XMSS_WOTS_PrivateKey) :=
  mkWOTSPrivateKey (wots_key_oid k) (wots_public_seed k) s.

(** The private key: its [XMSS_PublicKey] base, the one-time-signature
    private key, the PRF seed and the unused leaf index. *)
Record XMSS_PrivateKey : Type := mkPrivateKey {
  public_key : XMSS_PublicKey;
  m_wots_priv_key : XMSS_WOTS_PrivateKey;
  m_prf : bytes;
  unused_leaf_index : Z
}.

(** Modelled from the spec: [set_unused_leaf_index] is declared in
    botan/xmss_privatekey.h, which is not among the sources.  The key holds
    the leaf index as its cached last-known value; the setter stores it. *)
Definition set_unused_leaf_index (idx : Z) (k : XMSS_PrivateKey) : XMSS_PrivateKey :=
  mkPrivateKey (public_key k) (m_wots_priv_key k) (m_prf k) idx.

Definition public_seed (k : XMSS_PrivateKey) : bytes :=
  m_public_seed (public_key k).

Definition key_set_root (root : bytes) (k : XMSS_PrivateKey) : XMSS_PrivateKey :=
  mkPrivateKey (set_root root (public_key k)) (m_wots_priv_key k) (m_prf k)
               (unused_leaf_index k).

(** What a signature operation is built from: a copy of the key. *)
Record XMSS_Signature_Operation : Type := mkSignatureOperation {
  m_priv_key : XMSS_PrivateKey
}.

(** [std::ceil(static_cast<float>(h) / 8.f)]; division by 8 is exact in
    [float] for every [h] below 2^24. *)
Definition ceil_div8 (h : Z) : Z := (h + 7) / 8.

Lemma ceil_div8_le (h n : Z) : ceil_div8 h <= n <-> h <= 8 * n.
Proof. unfold ceil_div8. split; intros H; Z.div_mod_to_equations; lia. Qed.

Lemma u32_small (x : Z) : 0 <= x < 2 ^ 32 -> u32 x = x.
Proof. intros H. unfold u32. apply Z.mod_small. exact H. Qed.

Lemma u32_parent_index (x : Z) : u32 (parent_index x) = parent_index x.
Proof.
  apply u32_small. unfold parent_index, u32.
  rewrite Z.shiftr_div_pow2 by lia.
  pose proof (Z.mod_pos_bound (x - 1) (2 ^ 32) ltac:(lia)) as Hm.
  change (2 ^ 1) with 2. change (2 ^ 32) with 4294967296 in Hm |- *.
  Z.div_mod_to_equations. lia.
Qed.

Lemma u8_small (x : nat) : (x < 256)%nat -> u8 x = x.
Proof. intros H. unfold u8. apply Nat.mod_small. exact H. Qed.

(** The message of the index-width assertion,
    [System type "size_t" not big enough to support leaf index.], with
    [size_t] in double quotes. *)
Definition dquote : Ascii.ascii := Ascii.ascii_of_nat 34.

Definition size_t_message : string :=
  Eval cbv in
    String.append "System type "
      (String dquote
         (String.append "size_t"
            (String dquote " not big enough to support leaf index."))).

Section PrivateKey.

(** **** The platform *)

(** [sizeof(size_t)] *)
Variable sizeof_size_t : Z.

Definition size_t_bits : Z := 8 * sizeof_size_t.

(** Conversion to [size_t], and arithmetic in it. *)
Definition to_size_t (x : Z) : Z := x mod 2 ^ size_t_bits.

(** The value of
    [static_cast<size_t>(std::ceil(std::log2(std::thread::hardware_concurrency())))];
    0 stands for a build without threads as well. *)
Variable concurrency_log2 : nat.

(** **** Collaborators declared outside the sources *)

(** The random source, with [rng.random_vec(n)]. *)
Variable RNG : Type.
Variable random_vec : RNG -> Z -> bytes * RNG.

(** The constructors of the base class, [XMSS_PublicKey::size()] and
    [raw_public_key()]. *)
Variable XMSS_PublicKey_raw_key : bytes -> outcome XMSS_PublicKey.
Variable XMSS_PublicKey_rng : Z -> RNG -> outcome (XMSS_PublicKey * RNG).
Variable XMSS_PublicKey_size : XMSS_PublicKey -> Z.
Variable raw_public_key : XMSS_PublicKey -> bytes.

(** [algo_name()] *)
Variable algo_name : string.

(** The hash collaborators: [XMSS_WOTS_PrivateKey::at],
    [XMSS_WOTS_PrivateKey::generate_public_key],
    [XMSS_Common_Ops::create_l_tree] and
    [XMSS_Common_Ops::randomize_tree_hash].  Each is a function of its
    inputs; the [XMSS_Hash] instance they are handed carries no state
    between calls and is left out. *)
Variable wots_at : XMSS_WOTS_PrivateKey -> XMSS_Address -> list bytes.
Variable generate_public_key :
  XMSS_WOTS_PrivateKey -> list bytes -> XMSS_Address -> list bytes.
Variable create_l_tree : list bytes -> XMSS_Address -> bytes -> bytes.
Variable randomize_tree_hash :
  bytes -> bytes -> XMSS_Address -> bytes -> bytes.

(** **** Size of the raw private key *)

(** Modelled from the spec: [XMSS_PrivateKey::size()] is declared in
    botan/xmss_privatekey.h, which is not among the sources; the raw key
    is [public_key_size + 8 + 2*element_size] bytes long. *)
Definition size (pk : XMSS_PublicKey) : Z :=
  to_size_t (XMSS_PublicKey_size pk + 8 + 2 * element_size (m_xmss_params pk)).

(** **** Construction from raw bytes *)

Definition size_t_assert (pk : XMSS_PublicKey) : outcome unit :=
  BOTAN_ASSERT (ceil_div8 (tree_height (m_xmss_params pk)) <=? sizeof_size_t)
    size_t_message.

(** The loop over the eight bytes of the leaf index. *)
Definition decode_unused_leaf (field : bytes) : Z :=
  fold_left (fun unused_leaf i => Z.lor (u64 (Z.shiftl unused_leaf 8)) (Z_of_uint8 i))
            field 0.

(** [XMSS_PrivateKey::XMSS_PrivateKey(const secure_vector<uint8_t>& raw_key)] *)
Definition XMSS_PrivateKey_raw_key (raw_key : bytes) : outcome XMSS_PrivateKey :=
  pk ← XMSS_PublicKey_raw_key raw_key;
  let wots := mkWOTSPrivateKey (wots_oid (m_wots_params pk)) (m_public_seed pk) [] in
  _ ← size_t_assert pk;
  if negb (Z.of_nat (length raw_key) =? size pk)
  then Throw (Integrity_Failure "Invalid XMSS private key size detected.")
  else
    let begin := XMSS_PublicKey_size pk in
    let end_ := XMSS_PublicKey_size pk + 8 in
    field ← slice raw_key begin end_;
    let unused_leaf := decode_unused_leaf field in
    bound ← shl_ull (to_size_t (tree_height (m_xmss_params pk) - 1));
    if bound <=? unused_leaf
    then Throw (Integrity_Failure "XMSS private key leaf index out of bounds.")
    else
      let begin := end_ in
      let end_ := begin + element_size (m_xmss_params pk) in
      prf ← slice raw_key begin end_;
      let begin := end_ in
      let end_ := begin + wots_element_size (m_wots_params pk) in
      seed ← slice raw_key begin end_;
      let wots := set_private_seed seed wots in
      Ret (set_unused_leaf_index (to_size_t unused_leaf)
             (mkPrivateKey pk wots prf 0)).

(** **** Serialisation *)

(** [XMSS_PrivateKey::raw_private_key] *)
Definition raw_private_key (k : XMSS_PrivateKey) : bytes :=
  let result := raw_public_key (public_key k) in
  let result :=
    fold_left
      (fun result i =>
         result ++ [uint8_of_Z (Z.shiftr (u64 (unused_leaf_index k)) (8 * i))])
      [7; 6; 5; 4; 3; 2; 1; 0] result in
  let result := result ++ m_prf k in
  let result := result ++ private_seed (m_wots_priv_key k) in
  result.

(** **** Signature operations *)

(** [XMSS_PrivateKey::create_signature_op]; the random source is handed
    over by reference, so it is part of the result. *)
Definition create_signature_op (k : XMSS_PrivateKey) (rng : RNG)
    (params : string) (provider : string)
  : outcome XMSS_Signature_Operation * RNG :=
  if String.eqb provider "base" || String.eqb provider ""
  then (Ret (mkSignatureOperation k), rng)
  else (Throw (Provider_Not_Found algo_name provider), rng).

(** **** Tree hash *)

(** The locals of [tree_hash_subtree] that its loops update: the node
    stack with its pending node, the levels of the nodes, the stack level
    and the address cursor. *)
Record stack : Type := mkStack {
  s_nodes : list bytes;
  s_node_levels : list nat;
  s_level : nat;
  s_adrs : XMSS_Address
}.

(** The inner [while] loop of [tree_hash_subtree].  Every round decrements
    [level], and no round is entered at [level = 0]. *)
Fixpoint combine (key : XMSS_PrivateKey) (level : nat) (nodes : list bytes)
    (node_levels : list nat) (adrs : XMSS_Address) : outcome stack :=
  match level with
  | O => Ret (mkStack nodes node_levels O adrs)
  | S below =>
    top ← at_ node_levels (S below);
    next ← at_ node_levels below;
    if (top =? next)%nat then
      let adrs := set_tree_index (parent_index (get_tree_index adrs)) adrs in
      left ← at_ nodes below;
      right ← at_ nodes (S below);
      nodes ← put nodes below
                (randomize_tree_hash left right adrs (public_seed key));
      node_levels ← put node_levels below (u8 (next + 1));
      let adrs := set_tree_height (get_tree_height adrs + 1) adrs in
      combine key below nodes node_levels adrs
    else Ret (mkStack nodes node_levels (S below) adrs)
  end.

(** The body of the [for] loop of [tree_hash_subtree], for leaf [i]. *)
Definition leaf_body (key : XMSS_PrivateKey) (i : Z) (st : stack) : outcome stack :=
  let adrs := set_type OTS_Hash_Address (s_adrs st) in
  let adrs := set_ots_address i adrs in
  let pk := generate_public_key (m_wots_priv_key key)
              (wots_at (m_wots_priv_key key) adrs) adrs in
  let adrs := set_type LTree_Address adrs in
  let adrs := set_ltree_address i adrs in
  nodes ← put (s_nodes st) (s_level st) (create_l_tree pk adrs (public_seed key));
  node_levels ← put (s_node_levels st) (s_level st) 0%nat;
  let adrs := set_type Hash_Tree_Address adrs in
  let adrs := set_tree_height 0 adrs in
  let adrs := set_tree_index i adrs in
  st ← combine key (s_level st) nodes node_levels adrs;
  Ret (mkStack (s_nodes st) (s_node_levels st) (u8 (S (s_level st))) (s_adrs st)).

Definition zero_node (key : XMSS_PrivateKey) : bytes :=
  replicate (Z.to_nat (element_size (m_xmss_params (public_key key)))) Byte.x00.

Definition initial_stack (key : XMSS_PrivateKey) (target_node_height : nat)
    (adrs : XMSS_Address) : stack :=
  mkStack (replicate (target_node_height + 1) (zero_node key))
          (replicate (target_node_height + 1) 0%nat)
          0 adrs.

(** The [for] loop of [tree_hash_subtree] over the leaves
    [start_idx + first], ..., [start_idx + first + n - 1]. *)
Definition leaf_loop (key : XMSS_PrivateKey) (start_idx : Z) (first n : nat)
    (st : stack) : outcome stack :=
  for_loop (fun k => leaf_body key (start_idx + Z.of_nat k)) first n st.

(** [XMSS_PrivateKey::tree_hash_subtree]; the result and the address, both
    taken by reference, are returned. *)
Definition tree_hash_subtree (key : XMSS_PrivateKey) (start_idx : Z)
    (target_node_height : nat) (adrs : XMSS_Address)
  : outcome (bytes * XMSS_Address) :=
  p ← shl_int target_node_height;
  let last_idx := to_size_t (p + start_idx) in
  st ← leaf_loop key start_idx 0 (Z.to_nat (last_idx - start_idx))
         (initial_stack key target_node_height adrs);
  result ← match s_level st with
           | O => Undefined
           | S below => at_ (s_nodes st) below
           end;
  Ret (result, s_adrs st).

(** One task of the first round of the threaded [tree_hash]: subtree [i].
    The tasks of a round write to entries of their own in [nodes] and
    [node_addresses] and are joined before the next round starts, so a
    round is the sequence of its tasks. *)
Definition subtree_task (key : XMSS_PrivateKey) (start_idx offs : Z)
    (height : nat) (i : nat) (s : list bytes * list XMSS_Address)
  : outcome (list bytes * list XMSS_Address) :=
  a ← at_ s.2 i;
  '(result, a) ← tree_hash_subtree key
                   (to_size_t (start_idx + Z.of_nat i * offs)) height a;
  nodes ← put s.1 i result;
  node_addresses ← put s.2 i a;
  Ret (nodes, node_addresses).

(** One task of a later round: the parent of [ro_nodes[2i]] and
    [ro_nodes[2i+1]]. *)
Definition level_task (key : XMSS_PrivateKey) (target_node_height level : nat)
    (ro_nodes : list bytes) (i : nat) (s : list bytes * list XMSS_Address)
  : outcome (list bytes * list XMSS_Address) :=
  a ← at_ s.2 i;
  node_addresses ← put s.2 i
    (set_tree_height (Z.of_nat target_node_height - (Z.of_nat level + 1)) a);
  right_adrs ← at_ node_addresses (2 * i + 1);
  a ← at_ node_addresses i;
  let a := set_tree_index (parent_index (get_tree_index right_adrs)) a in
  node_addresses ← put node_addresses i a;
  left ← at_ ro_nodes (2 * i);
  right ← at_ ro_nodes (2 * i + 1);
  nodes ← put s.1 i (randomize_tree_hash left right a (public_seed key));
  Ret (nodes, node_addresses).

(** The body of [while(level-- > 1)], with [level] already decremented. *)
Definition level_round (key : XMSS_PrivateKey) (target_node_height level : nat)
    (s : list bytes * list XMSS_Address)
  : outcome (list bytes * list XMSS_Address) :=
  n2 ← shl_int (level + 1);
  ro_nodes ← slice s.1 0 n2;
  n ← shl_int level;
  for_loop (level_task key target_node_height level ro_nodes) 0 (Z.to_nat n) s.

(** [while(level-- > 1)] *)
Fixpoint combine_levels (key : XMSS_PrivateKey) (target_node_height level : nat)
    (s : list bytes * list XMSS_Address)
  : outcome (list bytes * list XMSS_Address) :=
  match level with
  | S (S _ as level') =>
    s ← level_round key target_node_height level' s;
    combine_levels key target_node_height level' s
  | _ => Ret s
  end.

(** The usual arithmetic conversions of [a % b] with [a] a [size_t] and [b]
    an [int]: where [size_t] is at least as wide as [int], [b] is converted
    to [size_t]; where it is narrower, the operation is one on [int]. *)
Definition int_operand (b : Z) : Z :=
  if 4 <=? sizeof_size_t then to_size_t b else b.

(** [XMSS_PrivateKey::tree_hash], in a build with threads. *)
Definition tree_hash (key : XMSS_PrivateKey) (start_idx : Z)
    (target_node_height : nat) (adrs : XMSS_Address)
  : outcome (bytes * XMSS_Address) :=
  p ← shl_int target_node_height;
  _ ← BOTAN_ASSERT (start_idx mod int_operand p =? 0)
        "Start index must be divisible by 2^{target node height}.";
  let split_level := Nat.min target_node_height concurrency_log2 in
  if (split_level =? 0)%nat
  then tree_hash_subtree key start_idx target_node_height adrs
  else
    subtrees ← shl_int split_level;
    let subtrees := to_size_t subtrees in
    let last_idx := to_size_t (p + start_idx) in
    let offs := to_size_t (last_idx - start_idx) / subtrees in
    let level := u8 split_level in
    _ ← BOTAN_ASSERT (to_size_t (last_idx - start_idx) mod subtrees =? 0)
          "Number of worker threads in tree_hash need to divide range of calculated nodes.";
    let nodes := replicate (Z.to_nat subtrees) (zero_node key) in
    let node_addresses := replicate (Z.to_nat subtrees) adrs in
    s ← for_loop (subtree_task key start_idx offs
                    (target_node_height - split_level))
          0 (Z.to_nat subtrees) (nodes, node_addresses);
    s ← combine_levels key target_node_height level s;
    a0 ← at_ s.2 0%nat;
    node_addresses ← put s.2 0%nat
      (set_tree_height (Z.of_nat target_node_height - 1) a0);
    a1 ← at_ node_addresses 1%nat;
    a0 ← at_ node_addresses 0%nat;
    let a0 := set_tree_index (parent_index (get_tree_index a1)) a0 in
    left ← at_ s.1 0%nat;
    right ← at_ s.1 1%nat;
    nodes ← put s.1 0%nat
              (randomize_tree_hash left right a0 (public_seed key));
    result ← at_ nodes 0%nat;
    Ret (result, adrs).

(** **** Construction from a random source *)

(** [XMSS_PrivateKey::XMSS_PrivateKey(xmss_algo_id, rng)].  The
    constructor of the one-time-signature private key draws its private
    seed from [rng]; the leaf index of a fresh key is 0. *)
Definition XMSS_PrivateKey_rng (xmss_algo_id : Z) (rng : RNG)
  : outcome (XMSS_PrivateKey * RNG) :=
  '(pk, rng) ← XMSS_PublicKey_rng xmss_algo_id rng;
  let '(seed, rng) := random_vec rng (wots_element_size (m_wots_params pk)) in
  let wots := mkWOTSPrivateKey (wots_oid (m_wots_params pk)) (m_public_seed pk) seed in
  let '(prf, rng) := random_vec rng (element_size (m_xmss_params pk)) in
  let key := mkPrivateKey pk wots prf 0 in
  let adrs := default_address in
  '(root, _) ← tree_hash key 0 (Z.to_nat (tree_height (m_xmss_params pk))) adrs;
  Ret (key_set_root root key, rng).

(** *** Properties of the signature-operation factory *)

(** C8: [create_signature_op] hands out a signature operation built from
    the key when the provider is the empty string or "base", and for every
    other provider throws [Provider_Not_Found] carrying the algorithm name
    and the requested provider. *)
Theorem create_signature_op_provider (k : XMSS_PrivateKey) (rng : RNG)
    (params provider : string) :
  ((provider = "" \/ provider = "base") /\
   (create_signature_op k rng params provider).1 = Ret (mkSignatureOperation k))
  \/
  (provider <> "" /\ provider <> "base" /\
   (create_signature_op k rng params provider).1
     = Throw (Provider_Not_Found algo_name provider)).
Proof.
  unfold create_signature_op.
  destruct (String.eqb_spec provider "base") as [Hb|Hb];
    destruct (String.eqb_spec provider "") as [He|He]; simpl; auto.
Qed.

(** C9: the outcome of [create_signature_op] is a function of the key and
    the provider alone: it is the same for any two random sources and any
    two parameter strings, and the random source comes back as it went
    in. *)
Theorem create_signature_op_ignores_rng_and_params (k : XMSS_PrivateKey)
    (rng1 rng2 : RNG) (params1 params2 provider : string) :
  (create_signature_op k rng1 params1 provider).1
    = (create_signature_op k rng2 params2 provider).1
  /\ (create_signature_op k rng1 params1 provider).2 = rng1.
Proof.
  unfold create_signature_op.
  destruct (String.eqb provider "base" || String.eqb provider ""); auto.
Qed.

(** *** Properties of parsing and serialisation *)

Lemma Z_of_uint8_of_Z (x : Z) : Z_of_uint8 (uint8_of_Z x) = x mod 256.
Proof.
  unfold Z_of_uint8, uint8_of_Z.
  assert (Hr : 0 <= x mod 256 < 256) by (apply Z.mod_pos_bound; lia).
  destruct (Byte.of_N (Z.to_N (x mod 256))) as [b|] eqn:Hb.
  - apply Byte.to_of_N in Hb. rewrite Hb. lia.
  - apply Byte.of_N_None_iff in Hb. lia.
Qed.

Lemma Z_of_uint8_range (b : Byte.byte) : 0 <= Z_of_uint8 b < 256.
Proof.
  unfold Z_of_uint8. pose proof (Byte.to_N_bounded b). lia.
Qed.

Lemma land_shifted_byte (q b : Z) :
  0 <= b < 256 -> Z.land (Z.shiftl q 8) b = 0.
Proof.
  intros Hb. apply Z.bits_inj'. intros n Hn.
  rewrite Z.land_spec, Z.bits_0.
  destruct (Z.ltb_spec n 8).
  - rewrite Z.shiftl_spec_low by lia. reflexivity.
  - replace (Z.testbit b n) with false; [apply andb_false_r|].
    symmetry. destruct (Z.eq_dec b 0) as [->|]; [apply Z.bits_0|].
    apply Z.bits_above_log2; [lia|].
    apply Z.log2_lt_pow2; [lia|].
    apply Z.lt_le_trans with (2 ^ 8); [simpl; lia|].
    apply Z.pow_le_mono_r; lia.
Qed.

(** One round of the decoding loop is a multiplication by 256 and an
    addition, cut to 64 bits. *)
Lemma decode_step (unused_leaf b : Z) :
  0 <= b < 256 ->
  Z.lor (u64 (Z.shiftl unused_leaf 8)) b = (unused_leaf * 256) mod 2 ^ 64 + b.
Proof.
  intros Hb. unfold u64. rewrite Z.shiftl_mul_pow2 by lia.
  change (2 ^ 8) with 256.
  set (m := (unused_leaf * 256) mod 2 ^ 64).
  assert (Hm : m = Z.shiftl (m / 256) 8).
  { rewrite Z.shiftl_mul_pow2 by lia. change (2 ^ 8) with 256.
    subst m. change (2 ^ 64) with (2 ^ 56 * 256).
    rewrite Zmult_mod_distr_r, Z.div_mul by lia. reflexivity. }
  rewrite Hm at 1.
  rewrite <- Z.lxor_lor by (apply land_shifted_byte; exact Hb).
  rewrite <- Z.add_nocarry_lxor by (apply land_shifted_byte; exact Hb).
  rewrite <- Hm. reflexivity.
Qed.

(** The eight bytes [raw_private_key] writes for the leaf index. *)
Definition leaf_index_bytes (idx : Z) : bytes :=
  map (fun i => uint8_of_Z (Z.shiftr (u64 idx) (8 * i))) [7; 6; 5; 4; 3; 2; 1; 0].

Lemma raw_private_key_layout (k : XMSS_PrivateKey) :
  raw_private_key k =
  raw_public_key (public_key k) ++ leaf_index_bytes (unused_leaf_index k)
    ++ m_prf k ++ private_seed (m_wots_priv_key k).
Proof.
  unfold raw_private_key, leaf_index_bytes. simpl.
  rewrite <- !app_assoc. reflexivity.
Qed.

(** Decoding the [n] low bytes of [x], most significant first, on top of
    an accumulator that leaves room for them. *)
Lemma decode_big_endian (x : Z) (n : nat) :
  forall acc : Z,
    0 <= acc ->
    (acc + 1) * 256 ^ Z.of_nat n <= 2 ^ 64 ->
    fold_left (fun unused_leaf i => Z.lor (u64 (Z.shiftl unused_leaf 8)) (Z_of_uint8 i))
      (map (fun i => uint8_of_Z (Z.shiftr x (8 * i)))
           (map Z.of_nat (rev (seq 0 n))))
      acc
    = acc * 256 ^ Z.of_nat n + x mod 256 ^ Z.of_nat n.
Proof.
  induction n as [|n IH]; intros acc Hacc Hroom.
  - simpl. rewrite Z.mod_1_r. lia.
  - rewrite seq_S, rev_app_distr. simpl rev. simpl map. simpl fold_left.
    assert (Hp : 0 < 256 ^ Z.of_nat n) by (apply Z.pow_pos_nonneg; lia).
    assert (Hs : 256 ^ Z.of_nat (S n) = 256 ^ Z.of_nat n * 256)
      by (rewrite Nat2Z.inj_succ, Z.pow_succ_r by lia; lia).
    rewrite Hs in Hroom |- *.
    rewrite decode_step by (rewrite Z_of_uint8_of_Z; apply Z.mod_pos_bound; lia).
    rewrite Z_of_uint8_of_Z.
    rewrite Z.shiftr_div_pow2 by lia.
    replace (2 ^ (8 * Z.of_nat n)) with (256 ^ Z.of_nat n)
      by (rewrite Z.pow_mul_r by lia; reflexivity).
    set (b := (x / 256 ^ Z.of_nat n) mod 256).
    assert (Hb : 0 <= b < 256) by (apply Z.mod_pos_bound; lia).
    assert (Hsmall : (acc * 256) mod 2 ^ 64 = acc * 256).
    { apply Z.mod_small. split; [lia|].
      apply Z.lt_le_trans with ((acc + 1) * (256 ^ Z.of_nat n * 256)); [|exact Hroom].
      nia. }
    rewrite Hsmall. rewrite IH.
    + rewrite (Z.rem_mul_r x (256 ^ Z.of_nat n) 256) by lia.
      fold b. ring.
    + lia.
    + apply Z.le_trans with ((acc + 1) * (256 ^ Z.of_nat n * 256)); [|exact Hroom].
      nia.
Qed.

Lemma decode_leaf_index_bytes (idx : Z) :
  decode_unused_leaf (leaf_index_bytes idx) = u64 idx.
Proof.
  unfold decode_unused_leaf, leaf_index_bytes.
  change [7; 6; 5; 4; 3; 2; 1; 0] with (map Z.of_nat (rev (seq 0 8))).
  rewrite decode_big_endian by (simpl; lia).
  change (256 ^ Z.of_nat 8) with (2 ^ 64).
  unfold u64. rewrite Z.mod_mod by lia. lia.
Qed.

Lemma slice_at {A : Type} (v a b c : list A) (s e : Z) :
  v = a ++ b ++ c ->
  s = Z.of_nat (length a) ->
  e = s + Z.of_nat (length b) ->
  slice v s e = Ret b.
Proof.
  intros -> -> ->. unfold slice.
  rewrite !length_app.
  replace ((0 <=? Z.of_nat (length a))
           && (Z.of_nat (length a) <=? Z.of_nat (length a) + Z.of_nat (length b))
           && (Z.of_nat (length a) + Z.of_nat (length b)
               <=? Z.of_nat (length a + (length b + length c)))) with true
    by (symmetry; rewrite !andb_true_iff, !Z.leb_le; lia).
  rewrite Nat2Z.id.
  replace (Z.to_nat (Z.of_nat (length a) + Z.of_nat (length b) - Z.of_nat (length a)))
    with (length b) by lia.
  rewrite drop_app_length, take_app_length. reflexivity.
Qed.

(** What the raw constructor relies on in the parameters the base class
    has read: sizes are sizes, both element sizes agree, and the length of
    the raw key is a [size_t]. *)
Definition well_sized (pk : XMSS_PublicKey) : Prop :=
  0 <= XMSS_PublicKey_size pk /\
  0 <= element_size (m_xmss_params pk) /\
  wots_element_size (m_wots_params pk) = element_size (m_xmss_params pk) /\
  XMSS_PublicKey_size pk + 8 + 2 * element_size (m_xmss_params pk)
    < 2 ^ size_t_bits.

(** The index-width assertion passes. *)
Definition index_width_ok (pk : XMSS_PublicKey) : Prop :=
  ceil_div8 (tree_height (m_xmss_params pk)) <= sizeof_size_t.

(** A fully initialised key: both seeds have [element_size] bytes and the
    leaf index is below [1 << (h - 1)]. *)
Definition valid_key (k : XMSS_PrivateKey) : Prop :=
  let pk := public_key k in
  well_sized pk /\
  1 <= tree_height (m_xmss_params pk) <= 64 /\
  index_width_ok pk /\
  Z.of_nat (length (m_prf k)) = element_size (m_xmss_params pk) /\
  Z.of_nat (length (private_seed (m_wots_priv_key k)))
    = element_size (m_xmss_params pk) /\
  0 <= unused_leaf_index k < 2 ^ (tree_height (m_xmss_params pk) - 1).

Lemma size_t_assert_ok (pk : XMSS_PublicKey) :
  index_width_ok pk -> size_t_assert pk = Ret tt.
Proof.
  unfold index_width_ok, size_t_assert, BOTAN_ASSERT. intros H.
  apply Z.leb_le in H. rewrite H. reflexivity.
Qed.

Lemma index_width_height (pk : XMSS_PublicKey) :
  index_width_ok pk -> tree_height (m_xmss_params pk) <= size_t_bits.
Proof.
  unfold index_width_ok, size_t_bits. intros H.
  apply ceil_div8_le in H. exact H.
Qed.

Lemma to_size_t_small (x : Z) : 0 <= x < 2 ^ size_t_bits -> to_size_t x = x.
Proof. intros H. unfold to_size_t. apply Z.mod_small. exact H. Qed.

(** A power of two that [int] holds is the same in [size_t]. *)
Lemma int_operand_pow2 (n : nat) :
  (n <= 30)%nat -> int_operand (2 ^ Z.of_nat n) = 2 ^ Z.of_nat n.
Proof.
  intros Hn. unfold int_operand.
  destruct (Z.leb_spec 4 sizeof_size_t) as [H4|H4]; [|reflexivity].
  apply to_size_t_small. split; [apply Z.pow_nonneg; lia|].
  apply Z.lt_le_trans with (2 ^ 32).
  - apply Z.pow_lt_mono_r; lia.
  - unfold size_t_bits. apply Z.pow_le_mono_r; lia.
Qed.

Lemma height_shift (pk : XMSS_PublicKey) :
  1 <= tree_height (m_xmss_params pk) <= 64 ->
  index_width_ok pk ->
  shl_ull (to_size_t (tree_height (m_xmss_params pk) - 1))
    = Ret (2 ^ (tree_height (m_xmss_params pk) - 1)).
Proof.
  intros Hh Hw. apply index_width_height in Hw.
  rewrite to_size_t_small.
  - unfold shl_ull.
    replace ((0 <=? tree_height (m_xmss_params pk) - 1)
             && (tree_height (m_xmss_params pk) - 1 <? 64)) with true
      by (symmetry; rewrite andb_true_iff, Z.leb_le, Z.ltb_lt; lia).
    reflexivity.
  - split; [lia|].
    apply Z.lt_le_trans with (2 ^ (tree_height (m_xmss_params pk) - 1)).
    + apply Z.pow_gt_lin_r; lia.
    + apply Z.pow_le_mono_r; lia.
Qed.

Lemma leaf_index_fits (pk : XMSS_PublicKey) (idx : Z) :
  1 <= tree_height (m_xmss_params pk) <= 64 ->
  index_width_ok pk ->
  0 <= idx < 2 ^ (tree_height (m_xmss_params pk) - 1) ->
  to_size_t idx = idx /\ u64 idx = idx.
Proof.
  intros Hh Hw Hi. apply index_width_height in Hw. split.
  - apply to_size_t_small. split; [lia|].
    apply Z.lt_le_trans with (2 ^ (tree_height (m_xmss_params pk) - 1)); [lia|].
    apply Z.pow_le_mono_r; lia.
  - unfold u64. apply Z.mod_small. split; [lia|].
    apply Z.lt_le_trans with (2 ^ (tree_height (m_xmss_params pk) - 1)); [lia|].
    apply Z.pow_le_mono_r; lia.
Qed.

(** The raw constructor on a buffer that the base class accepts and that
    splits into the four fields of the layout. *)
Lemma raw_key_fields (raw pub field prf seed : bytes) (pk : XMSS_PublicKey) :
  XMSS_PublicKey_raw_key raw = Ret pk ->
  well_sized pk ->
  1 <= tree_height (m_xmss_params pk) <= 64 ->
  index_width_ok pk ->
  raw = pub ++ field ++ prf ++ seed ->
  Z.of_nat (length pub) = XMSS_PublicKey_size pk ->
  length field = 8%nat ->
  Z.of_nat (length prf) = element_size (m_xmss_params pk) ->
  Z.of_nat (length seed) = element_size (m_xmss_params pk) ->
  XMSS_PrivateKey_raw_key raw =
    if 2 ^ (tree_height (m_xmss_params pk) - 1) <=? decode_unused_leaf field
    then Throw (Integrity_Failure "XMSS private key leaf index out of bounds.")
    else Ret (mkPrivateKey pk
                (mkWOTSPrivateKey (wots_oid (m_wots_params pk)) (m_public_seed pk) seed)
                prf (to_size_t (decode_unused_leaf field))).
Proof.
  intros Hpk (Hs0 & Hn0 & Hwn & Hfit) Hh Hw Hraw Hpub Hfield Hprf Hseed.
  unfold XMSS_PrivateKey_raw_key. rewrite Hpk. simpl.
  rewrite size_t_assert_ok by exact Hw. simpl.
  assert (Hlen : Z.of_nat (length raw) = size pk).
  { unfold size. rewrite to_size_t_small by lia.
    rewrite Hraw, !length_app. lia. }
  apply Z.eqb_eq in Hlen. rewrite Hlen. simpl.
  rewrite (slice_at raw pub field (prf ++ seed) (XMSS_PublicKey_size pk)
             (XMSS_PublicKey_size pk + 8)) by (auto; lia).
  simpl.
  rewrite height_shift by assumption. simpl.
  destruct (2 ^ (tree_height (m_xmss_params pk) - 1) <=? decode_unused_leaf field);
    [reflexivity|].
  rewrite (slice_at raw (pub ++ field) prf seed (XMSS_PublicKey_size pk + 8)
             (XMSS_PublicKey_size pk + 8 + element_size (m_xmss_params pk)))
    by (rewrite <- ?app_assoc, ?length_app; auto; lia).
  simpl.
  rewrite (slice_at raw (pub ++ field ++ prf) seed []
             (XMSS_PublicKey_size pk + 8 + element_size (m_xmss_params pk))
             (XMSS_PublicKey_size pk + 8 + element_size (m_xmss_params pk)
              + wots_element_size (m_wots_params pk)))
    by (rewrite <- ?app_assoc, ?app_nil_r, ?length_app; auto; lia).
  reflexivity.
Qed.

(** C2: serialising a fully initialised key with [raw_private_key] and
    constructing a key from the bytes gives back the public key, the PRF
    seed, the one-time-signature private seed and the unused leaf index,
    provided the base class reads back the public key it has written. *)
Theorem raw_private_key_round_trip (k : XMSS_PrivateKey) :
  valid_key k ->
  (forall rest, XMSS_PublicKey_raw_key (raw_public_key (public_key k) ++ rest)
                = Ret (public_key k)) ->
  Z.of_nat (length (raw_public_key (public_key k)))
    = XMSS_PublicKey_size (public_key k) ->
  exists k',
    XMSS_PrivateKey_raw_key (raw_private_key k) = Ret k' /\
    public_key k' = public_key k /\
    m_prf k' = m_prf k /\
    private_seed (m_wots_priv_key k') = private_seed (m_wots_priv_key k) /\
    unused_leaf_index k' = unused_leaf_index k.
Proof.
  intros (Hws & Hh & Hw & Hprf & Hseed & Hidx) Hrt Hlen.
  pose proof (leaf_index_fits _ _ Hh Hw Hidx) as [Hsz H64].
  rewrite (raw_key_fields (raw_private_key k) (raw_public_key (public_key k))
             (leaf_index_bytes (unused_leaf_index k)) (m_prf k)
             (private_seed (m_wots_priv_key k)) (public_key k));
    try assumption; try reflexivity.
  - rewrite decode_leaf_index_bytes, H64.
    replace (2 ^ (tree_height (m_xmss_params (public_key k)) - 1)
             <=? unused_leaf_index k) with false
      by (symmetry; apply Z.leb_gt; lia).
    eexists. split; [reflexivity|]. simpl. rewrite Hsz. auto.
  - rewrite raw_private_key_layout. apply Hrt.
  - apply raw_private_key_layout.
Qed.

(** The eight bytes of the leaf index in a raw key. *)
Definition leaf_index_field (raw : bytes) (pk : XMSS_PublicKey) : bytes :=
  take 8 (drop (Z.to_nat (XMSS_PublicKey_size pk)) raw).

Lemma decode_unused_leaf_nonneg (field : bytes) : 0 <= decode_unused_leaf field.
Proof.
  unfold decode_unused_leaf.
  assert (H : forall acc, 0 <= acc ->
    0 <= fold_left (fun unused_leaf i =>
                      Z.lor (u64 (Z.shiftl unused_leaf 8)) (Z_of_uint8 i)) field acc).
  { induction field as [|b field IH]; intros acc Hacc; simpl; [exact Hacc|].
    apply IH. apply Z.lor_nonneg. split.
    - unfold u64. apply Z.mod_pos_bound. lia.
    - apply Z_of_uint8_range. }
  apply H. lia.
Qed.

Lemma raw_key_split (raw : bytes) (p n : Z) :
  0 <= p -> 0 <= n ->
  Z.of_nat (length raw) = p + 8 + 2 * n ->
  let pub := take (Z.to_nat p) raw in
  let field := take 8 (drop (Z.to_nat p) raw) in
  let prf := take (Z.to_nat n) (drop (Z.to_nat p + 8) raw) in
  let seed := drop (Z.to_nat p + 8 + Z.to_nat n) raw in
  raw = pub ++ field ++ prf ++ seed /\
  Z.of_nat (length pub) = p /\ length field = 8%nat /\
  Z.of_nat (length prf) = n /\ Z.of_nat (length seed) = n.
Proof.
  intros Hp Hn Hlen. simpl. repeat split.
  - rewrite <- (drop_drop raw (Z.to_nat n) (Z.to_nat p + 8)).
    rewrite take_drop.
    rewrite <- (drop_drop raw 8 (Z.to_nat p)).
    rewrite !take_drop. reflexivity.
  - rewrite length_take. lia.
  - rewrite length_take, length_drop. lia.
  - rewrite length_take, length_drop. lia.
  - rewrite length_drop. lia.
Qed.

(** C3: on a buffer of the right length that the base class accepts, the
    raw constructor throws the bounds [Integrity_Failure] when the decoded
    leaf index is [1 << (h - 1)] or more, and builds a key holding the
    decoded index when it is below, in particular at [(1 << (h - 1)) - 1]. *)
Theorem leaf_index_bound_enforced (raw : bytes) (pk : XMSS_PublicKey) :
  XMSS_PublicKey_raw_key raw = Ret pk ->
  well_sized pk ->
  1 <= tree_height (m_xmss_params pk) <= 64 ->
  index_width_ok pk ->
  Z.of_nat (length raw)
    = XMSS_PublicKey_size pk + 8 + 2 * element_size (m_xmss_params pk) ->
  let idx := decode_unused_leaf (leaf_index_field raw pk) in
  let bound := 2 ^ (tree_height (m_xmss_params pk) - 1) in
  let out_of_bounds :=
    Throw (Integrity_Failure "XMSS private key leaf index out of bounds.") in
  (bound <= idx -> XMSS_PrivateKey_raw_key raw = out_of_bounds) /\
  (idx = bound -> XMSS_PrivateKey_raw_key raw = out_of_bounds) /\
  (idx = bound - 1 ->
   exists k, XMSS_PrivateKey_raw_key raw = Ret k /\
             unused_leaf_index k = bound - 1 /\ public_key k = pk) /\
  (idx < bound ->
   exists k, XMSS_PrivateKey_raw_key raw = Ret k /\
             unused_leaf_index k = idx /\ public_key k = pk).
Proof.
  intros Hpk Hws Hh Hw Hlen idx bound out_of_bounds.
  pose proof Hws as (Hs0 & Hn0 & Hwn & Hfit).
  destruct (raw_key_split raw _ _ Hs0 Hn0 Hlen)
    as (Hraw & Hpub & Hfield & Hprf & Hseed).
  pose proof (raw_key_fields raw _ _ _ _ pk Hpk Hws Hh Hw Hraw Hpub Hfield Hprf Hseed)
    as Hctor.
  fold (leaf_index_field raw pk) in Hctor. fold idx bound in Hctor.
  pose proof (decode_unused_leaf_nonneg (leaf_index_field raw pk)) as Hnn.
  fold idx in Hnn.
  assert (Hge : bound <= idx -> XMSS_PrivateKey_raw_key raw = out_of_bounds).
  { intros Hb. rewrite Hctor. apply Z.leb_le in Hb. rewrite Hb. reflexivity. }
  assert (Hlt : idx < bound ->
    exists k, XMSS_PrivateKey_raw_key raw = Ret k /\
              unused_leaf_index k = idx /\ public_key k = pk).
  { intros Hb. rewrite Hctor.
    replace (bound <=? idx) with false by (symmetry; apply Z.leb_gt; lia).
    eexists. split; [reflexivity|]. simpl. split; [|reflexivity].
    apply (leaf_index_fits pk idx Hh Hw). unfold bound in Hb. lia. }
  repeat split.
  - exact Hge.
  - intros He. apply Hge. lia.
  - intros He. destruct Hlt as (k & Hk & Hi & Hp); [lia|].
    exists k. rewrite Hi. auto.
  - exact Hlt.
Qed.

(** Whatever the platform, an ill-sized buffer never yields a key. *)
Lemma raw_key_size_no_key (raw : bytes) (pk : XMSS_PublicKey) (k : XMSS_PrivateKey) :
  XMSS_PublicKey_raw_key raw = Ret pk ->
  Z.of_nat (length raw) <> size pk ->
  XMSS_PrivateKey_raw_key raw <> Ret k.
Proof.
  intros Hpk Hlen. unfold XMSS_PrivateKey_raw_key.
  rewrite Hpk. simpl. unfold size_t_assert, BOTAN_ASSERT.
  destruct (_ <=? sizeof_size_t); simpl; [|discriminate].
  apply Z.eqb_neq in Hlen. rewrite Hlen. discriminate.
Qed.

(** C4: on a buffer whose length is not [size()], the raw constructor
    throws the size [Integrity_Failure], whatever the buffer holds in its
    leaf-index field; the base class has accepted the buffer and the
    index-width assertion has passed by then.  No key comes out of such a
    buffer on any platform. *)
Theorem raw_key_size_enforced (raw : bytes) (pk : XMSS_PublicKey) :
  XMSS_PublicKey_raw_key raw = Ret pk ->
  Z.of_nat (length raw) <> size pk ->
  (index_width_ok pk ->
   XMSS_PrivateKey_raw_key raw
     = Throw (Integrity_Failure "Invalid XMSS private key size detected.")) /\
  (forall k, XMSS_PrivateKey_raw_key raw <> Ret k).
Proof.
  intros Hpk Hlen. split.
  - intros Hw. unfold XMSS_PrivateKey_raw_key.
    rewrite Hpk. simpl. rewrite size_t_assert_ok by exact Hw. simpl.
    apply Z.eqb_neq in Hlen. rewrite Hlen. reflexivity.
  - intros k. apply (raw_key_size_no_key raw pk k Hpk Hlen).
Qed.

(** The index-width assertion of the raw constructor: with [size_t] of
    [sizeof_size_t] bytes it fails exactly when [1 << (h - 1)] does not fit
    [size_t]. *)
Lemma size_t_assert_iff_fits (pk : XMSS_PublicKey) :
  0 < sizeof_size_t ->
  1 <= tree_height (m_xmss_params pk) ->
  (size_t_assert pk = Ret tt <->
   2 ^ (tree_height (m_xmss_params pk) - 1) < 2 ^ size_t_bits).
Proof.
  intros Hs Hh. unfold size_t_assert, BOTAN_ASSERT, size_t_bits.
  destruct (Z.leb_spec (ceil_div8 (tree_height (m_xmss_params pk))) sizeof_size_t)
    as [Hle|Hgt].
  - split; [intros _ | reflexivity].
    apply ceil_div8_le in Hle. apply Z.pow_lt_mono_r; lia.
  - split; [discriminate|]. intros Hlt. exfalso.
    apply Z.pow_lt_mono_r_iff in Hlt; [|lia|lia].
    assert (Hle : ceil_div8 (tree_height (m_xmss_params pk)) <= sizeof_size_t)
      by (apply ceil_div8_le; lia).
    lia.
Qed.

Lemma raw_key_index_width_refused (raw : bytes) (pk : XMSS_PublicKey) :
  XMSS_PublicKey_raw_key raw = Ret pk ->
  0 < sizeof_size_t ->
  1 <= tree_height (m_xmss_params pk) ->
  2 ^ size_t_bits <= 2 ^ (tree_height (m_xmss_params pk) - 1) ->
  XMSS_PrivateKey_raw_key raw
    = Throw (Internal_Error size_t_message).
Proof.
  intros Hpk Hs Hh Hfit. unfold XMSS_PrivateKey_raw_key. rewrite Hpk. simpl.
  destruct (size_t_assert pk) as [[]| e |] eqn:Ha.
  - apply size_t_assert_iff_fits in Ha; [lia|assumption|assumption].
  - unfold size_t_assert, BOTAN_ASSERT in Ha.
    destruct (_ <=? _); [discriminate|]. inversion Ha. reflexivity.
  - unfold size_t_assert, BOTAN_ASSERT in Ha. destruct (_ <=? _); discriminate.
Qed.

(** *** The Merkle tree the tree hash computes *)

(** Two addresses name the same hash invocation when they have the same
    type and agree on the fields of that type. *)
Definition same_domain (a a' : XMSS_Address) : Prop :=
  get_type a = get_type a' /\
  match get_type a with
  | OTS_Hash_Address => get_ots_address a = get_ots_address a'
  | LTree_Address => get_ltree_address a = get_ltree_address a'
  | Hash_Tree_Address =>
      get_tree_height a = get_tree_height a' /\
      get_tree_index a = get_tree_index a'
  end.

(** Domain separation: a hash collaborator reads from the address it is
    handed the type and the fields of that type, nothing else. *)
Definition domain_separated : Prop :=
  (forall wk a a', same_domain a a' -> wots_at wk a = wots_at wk a') /\
  (forall wk sk a a', same_domain a a' ->
     generate_public_key wk sk a = generate_public_key wk sk a') /\
  (forall pk a a' seed, same_domain a a' ->
     create_l_tree pk a seed = create_l_tree pk a' seed) /\
  (forall l r a a' seed, same_domain a a' ->
     randomize_tree_hash l r a seed = randomize_tree_hash l r a' seed).

Definition ots_adrs (i : Z) : XMSS_Address :=
  mkAddress OTS_Hash_Address (u32 i) 0 0 0.

Definition ltree_adrs (i : Z) : XMSS_Address :=
  mkAddress LTree_Address 0 (u32 i) 0 0.

Definition hash_tree_adrs (height index : Z) : XMSS_Address :=
  mkAddress Hash_Tree_Address 0 0 height index.

(** The leaf of the tree at index [i]: the L-tree over the one-time public
    key at [i]. *)
Definition leaf_node (key : XMSS_PrivateKey) (i : Z) : bytes :=
  create_l_tree
    (generate_public_key (m_wots_priv_key key)
       (wots_at (m_wots_priv_key key) (ots_adrs i)) (ots_adrs i))
    (ltree_adrs i) (public_seed key).

(** The tree index of the node of height [height] over the leaves from
    [first_leaf] on: the index of a leaf is the leaf's, the index of a
    parent is [(child_index - 1) >> 1] of its right child. *)
Fixpoint tree_index_at (height : nat) (first_leaf : Z) : Z :=
  match height with
  | O => u32 first_leaf
  | S h => parent_index (tree_index_at h (first_leaf + 2 ^ Z.of_nat h))
  end.

(** The Merkle node covering the leaves
    [[first_leaf, first_leaf + 2^height)]: a parent combines its two
    children under the hash-tree address of the children's height and the
    parent's index. *)
Fixpoint merkle_node (key : XMSS_PrivateKey) (height : nat) (first_leaf : Z) : bytes :=
  match height with
  | O => leaf_node key first_leaf
  | S h =>
    randomize_tree_hash
      (merkle_node key h first_leaf)
      (merkle_node key h (first_leaf + 2 ^ Z.of_nat h))
      (hash_tree_adrs (Z.of_nat h) (tree_index_at (S h) first_leaf))
      (public_seed key)
  end.

(** Where the address cursor stands once the sequential algorithm has
    built the node of height [height] over the leaves from [first_leaf]. *)
Definition cursor (height : nat) (first_leaf : Z) : XMSS_Address :=
  mkAddress Hash_Tree_Address
    (u32 (first_leaf + 2 ^ Z.of_nat height - 1))
    (u32 (first_leaf + 2 ^ Z.of_nat height - 1))
    (Z.of_nat height) (tree_index_at height first_leaf).

(** The stack with its pending node in place, before the inner loop. *)
Definition combine_stack (key : XMSS_PrivateKey) (st : stack) : outcome stack :=
  combine key (s_level st) (s_nodes st) (s_node_levels st) (s_adrs st).

(** [level++] *)
Definition push (st : stack) : stack :=
  mkStack (s_nodes st) (s_node_levels st) (u8 (S (s_level st))) (s_adrs st).

Definition settle (key : XMSS_PrivateKey) (st : stack) : outcome stack :=
  st ← combine_stack key st; Ret (push st).

(** [st1] is [st] with the node [v] of level [t] pending on top and the
    cursor at [a]. *)
Definition pending (st : stack) (v : bytes) (t : nat) (a : XMSS_Address)
    (st1 : stack) : Prop :=
  s_level st1 = s_level st /\
  length (s_nodes st1) = length (s_nodes st) /\
  length (s_node_levels st1) = length (s_node_levels st) /\
  take (s_level st) (s_nodes st1) = take (s_level st) (s_nodes st) /\
  take (s_level st) (s_node_levels st1) = take (s_level st) (s_node_levels st) /\
  s_nodes st1 !! s_level st = Some v /\
  s_node_levels st1 !! s_level st = Some t /\
  s_adrs st1 = a.

Lemma at_Some {A : Type} (v : list A) (i : nat) (x : A) :
  v !! i = Some x -> at_ v i = Ret x.
Proof. intros H. unfold at_. rewrite H. reflexivity. Qed.

Lemma put_lt {A : Type} (v : list A) (i : nat) (x : A) :
  (i < length v)%nat -> put v i x = Ret (<[i := x]> v).
Proof.
  intros H. unfold put. apply Nat.ltb_lt in H. rewrite H. reflexivity.
Qed.

Lemma put_Ret {A : Type} (v v' : list A) (i : nat) (x : A) :
  put v i x = Ret v' -> (i < length v)%nat /\ v' = <[i := x]> v.
Proof.
  unfold put. destruct (Nat.ltb_spec i (length v)) as [Hlt|Hge]; [|discriminate].
  intros H. inversion H. auto.
Qed.

Lemma take_eq_lookup {A : Type} (n i : nat) (l l' : list A) :
  take n l = take n l' -> (i < n)%nat -> l !! i = l' !! i.
Proof.
  intros H Hi.
  rewrite <- (lookup_take_lt l n i), <- (lookup_take_lt l' n i) by exact Hi.
  rewrite H. reflexivity.
Qed.

Lemma take_eq_le {A : Type} (n m : nat) (l l' : list A) :
  take n l = take n l' -> (m <= n)%nat -> take m l = take m l'.
Proof.
  intros H Hm.
  replace m with (min m n) by lia.
  rewrite <- !take_take, H. reflexivity.
Qed.

Lemma for_loop_app {T : Type} (body : nat -> T -> outcome T) (n m i : nat) (s : T) :
  for_loop body i (n + m) s = s' ← for_loop body i n s; for_loop body (i + n) m s'.
Proof.
  revert i s. induction n as [|n IH]; intros i s; simpl.
  - rewrite Nat.add_0_r. reflexivity.
  - destruct (body i s) as [s'| e |]; simpl; [|reflexivity|reflexivity].
    rewrite IH. replace (S i + n)%nat with (i + S n)%nat by lia. reflexivity.
Qed.

(** *** The sequential algorithm *)

Lemma bind_Ret_r {A : Type} (m : outcome A) : (x ← m; Ret x) = m.
Proof. destruct m; reflexivity. Qed.

Lemma bind_Ret_l {A B : Type} (a : A) (k : A -> outcome B) :
  (x ← Ret a; k x) = k a.
Proof. reflexivity. Qed.

(** The inner loop stops at once when the stack holds the pending node
    only, or when the two topmost levels differ. *)
Lemma combine_stack_stop (key : XMSS_PrivateKey) (st : stack) :
  s_level st = 0%nat \/
  (exists top next,
      s_node_levels st !! s_level st = Some top /\
      s_node_levels st !! (s_level st - 1)%nat = Some next /\
      top <> next) ->
  combine_stack key st = Ret st.
Proof.
  destruct st as [ns ls [|below] a]; unfold combine_stack; simpl;
    intros [H0 | (top & next & Ht & Hn & Hne)];
    try reflexivity; try discriminate.
  rewrite Nat.sub_0_r in Hn.
  rewrite (at_Some _ _ _ Ht), (at_Some _ _ _ Hn). simpl.
  apply Nat.eqb_neq in Hne. rewrite Hne. reflexivity.
Qed.

(** One round of the inner loop: the two topmost nodes are at the same
    level and are replaced by their parent, one level up. *)
Lemma combine_stack_merge (key : XMSS_PrivateKey) (st : stack)
    (below t : nat) (l r : bytes) :
  s_level st = S below ->
  s_node_levels st !! S below = Some t ->
  s_node_levels st !! below = Some t ->
  s_nodes st !! below = Some l ->
  s_nodes st !! S below = Some r ->
  let a := set_tree_index (parent_index (get_tree_index (s_adrs st))) (s_adrs st) in
  combine_stack key st =
  combine_stack key
    (mkStack (<[below := randomize_tree_hash l r a (public_seed key)]> (s_nodes st))
             (<[below := u8 (t + 1)]> (s_node_levels st))
             below
             (set_tree_height (get_tree_height a + 1) a)).
Proof.
  destruct st as [ns ls lv ad]. simpl. intros -> Ht Hn Hl Hr.
  unfold combine_stack. simpl.
  rewrite (at_Some _ _ _ Ht), (at_Some _ _ _ Hn). simpl.
  rewrite Nat.eqb_refl.
  rewrite (at_Some _ _ _ Hl), (at_Some _ _ _ Hr). simpl.
  rewrite (put_lt ns) by (eapply lookup_lt_Some; exact Hl). simpl.
  rewrite (put_lt ls) by (eapply lookup_lt_Some; exact Hn). simpl.
  reflexivity.
Qed.

(** The loop body leaves the leaf pending and runs the inner loop. *)
Lemma leaf_body_pending (key : XMSS_PrivateKey) (i : Z) (st : stack) :
  (s_level st < length (s_nodes st))%nat ->
  length (s_node_levels st) = length (s_nodes st) ->
  exists st1 v,
    pending st v 0 (cursor 0 i) st1 /\
    (domain_separated -> v = leaf_node key i) /\
    leaf_body key i st = settle key st1.
Proof.
  intros Hlv Hlen. unfold leaf_body.
  rewrite (put_lt (s_nodes st)) by exact Hlv. simpl.
  rewrite (put_lt (s_node_levels st)) by (rewrite Hlen; exact Hlv). simpl.
  eexists (mkStack _ _ (s_level st) _), _. split; [|split].
  3: { unfold settle, combine_stack. simpl. reflexivity. }
  - unfold pending. simpl.
    rewrite !length_insert, !take_insert_ge by lia.
    rewrite !list_lookup_insert_eq by (rewrite ?Hlen; exact Hlv).
    repeat split; try reflexivity.
    unfold cursor, set_tree_index, set_tree_height, set_type,
      set_ltree_address, set_ots_address. simpl.
    change (2 ^ Z.of_nat 0) with 1. change (u32 0) with 0.
    replace (i + 1 - 1) with i by lia. reflexivity.
  - intros (Hat & Hgen & Hlt & _).
    unfold leaf_node.
    rewrite (Hat _ _ (ots_adrs i)) by (split; reflexivity).
    rewrite (Hgen _ _ _ (ots_adrs i)) by (split; reflexivity).
    apply Hlt. split; reflexivity.
Qed.

(** The block lemma: from a stack with room for [t] more levels whose top
    node, if there is one, is at level [t] or above, the loop over the
    [2^t] leaves from [start_idx + first] amounts to leaving the Merkle
    node over these leaves pending and running the inner loop. *)
Lemma leaf_loop_block (key : XMSS_PrivateKey) (start_idx : Z) (t : nat) :
  forall (first : nat) (st : stack),
    (s_level st + t < length (s_nodes st))%nat ->
    length (s_node_levels st) = length (s_nodes st) ->
    (length (s_nodes st) <= 256)%nat ->
    (s_level st = 0%nat \/
     exists t0, s_node_levels st !! (s_level st - 1)%nat = Some t0 /\ (t <= t0)%nat) ->
    exists st1 v,
      pending st v t (cursor t (start_idx + Z.of_nat first)) st1 /\
      (domain_separated -> v = merkle_node key t (start_idx + Z.of_nat first)) /\
      leaf_loop key start_idx first (2 ^ t) st = settle key st1.
Proof.
  induction t as [|t IH]; intros first st Hroom Hlen Hcap Htop.
  - destruct (leaf_body_pending key (start_idx + Z.of_nat first) st)
      as (st1 & v & Hp & Hv & Hrun); [lia|exact Hlen|].
    exists st1, v. split; [exact Hp|]. split; [exact Hv|].
    unfold leaf_loop. simpl. rewrite bind_Ret_r. exact Hrun.
  - replace (2 ^ S t)%nat with (2 ^ t + 2 ^ t)%nat by (simpl; lia).
    unfold leaf_loop. rewrite for_loop_app. fold (leaf_loop key start_idx).
    (* the left half *)
    destruct (IH first st) as (st1 & v1 & Hp1 & Hv1 & Hrun1);
      [lia|exact Hlen|exact Hcap| |].
    { destruct Htop as [H0|(t0 & Ht0 & Hle)]; [left; exact H0|].
      right. exists t0. split; [exact Ht0|lia]. }
    fold (leaf_loop key start_idx first (2 ^ t) st). rewrite Hrun1.
    destruct Hp1 as (Hl1 & Hn1 & Hnl1 & Htn1 & Htl1 & Hv1' & Hlv1 & Ha1).
    assert (Hstop : combine_stack key st1 = Ret st1).
    { apply combine_stack_stop. rewrite Hl1.
      destruct (Nat.eq_dec (s_level st) 0%nat) as [H0|Hpos]; [left; exact H0|].
      destruct Htop as [H0|(t0 & Ht0 & Hle)]; [left; exact H0|].
      right. exists t, t0. split; [exact Hlv1|]. split; [|lia].
      rewrite <- Ht0. apply (take_eq_lookup (s_level st)); [exact Htl1|lia]. }
    unfold settle at 1. rewrite Hstop, !bind_Ret_l.
    fold (leaf_loop key start_idx (first + 2 ^ t) (2 ^ t) (push st1)).
    (* the right half *)
    assert (Hpl : s_level (push st1) = S (s_level st)).
    { simpl. rewrite Hl1. apply u8_small. lia. }
    destruct (IH (first + 2 ^ t)%nat (push st1)) as (st3 & v3 & Hp3 & Hv3 & Hrun3).
    { rewrite Hpl. simpl. lia. }
    { simpl. lia. }
    { simpl. lia. }
    { right. exists t. rewrite Hpl. simpl. rewrite Nat.sub_0_r.
      split; [exact Hlv1|lia]. }
    assert (Hz : start_idx + Z.of_nat (first + 2 ^ t)
                 = start_idx + Z.of_nat first + 2 ^ Z.of_nat t).
    { rewrite Nat2Z.inj_add, Nat2Z.inj_pow. change (Z.of_nat 2) with 2. lia. }
    assert (Hs : 2 ^ Z.of_nat (S t) = 2 * 2 ^ Z.of_nat t).
    { rewrite Nat2Z.inj_succ, Z.pow_succ_r by lia. reflexivity. }
    rewrite Hz in Hp3, Hv3.
    rewrite Hrun3.
    destruct Hp3 as (Hl3 & Hn3 & Hnl3 & Htn3 & Htl3 & Hv3' & Hlv3 & Ha3).
    rewrite Hpl in Hl3, Htn3, Htl3, Hv3', Hlv3.
    cbn [push s_nodes s_node_levels] in Hn3, Hnl3, Htn3, Htl3.
    assert (Hleft : s_nodes st3 !! s_level st = Some v1).
    { rewrite <- Hv1'. apply (take_eq_lookup (S (s_level st))); [exact Htn3|lia]. }
    assert (Hllv : s_node_levels st3 !! s_level st = Some t).
    { rewrite <- Hlv1. apply (take_eq_lookup (S (s_level st))); [exact Htl3|lia]. }
    unfold settle.
    rewrite (combine_stack_merge key st3 (s_level st) t v1 v3 Hl3 Hlv3 Hllv Hleft Hv3').
    eexists (mkStack _ _ (s_level st) _), _. split; [|split; [|reflexivity]].
    + unfold pending. cbn [s_nodes s_node_levels s_level s_adrs].
      rewrite !length_insert, !take_insert_ge by lia.
      rewrite !list_lookup_insert_eq by lia.
      rewrite (take_eq_le _ _ _ _ Htn3), (take_eq_le _ _ _ _ Htl3) by lia.
      rewrite u8_small by lia.
      repeat split; try assumption; try lia.
      * f_equal. lia.
      * rewrite Ha3.
        unfold cursor, set_tree_height, set_tree_index.
        cbn [get_type get_ots_address get_ltree_address get_tree_height
             get_tree_index tree_index_at].
        rewrite u32_parent_index, Hs.
        f_equal; try (f_equal; lia).
        rewrite Nat2Z.inj_succ. apply u32_small. lia.
    + intros Hds. rewrite (Hv1 Hds), (Hv3 Hds).
      destruct Hds as (_ & _ & _ & Hrth).
      cbn [merkle_node].
      apply Hrth. rewrite Ha3. split; [reflexivity|].
      unfold cursor, set_tree_index, hash_tree_adrs.
      cbn [get_type get_ots_address get_ltree_address get_tree_height
           get_tree_index tree_index_at].
      rewrite u32_parent_index. split; reflexivity.
Qed.

Lemma shl_int_Ret (n : nat) : (n <= 30)%nat -> shl_int n = Ret (2 ^ Z.of_nat n).
Proof.
  intros H. unfold shl_int. apply Nat.leb_le in H. rewrite H. reflexivity.
Qed.

Lemma pow2_to_nat (n : nat) : Z.to_nat (2 ^ Z.of_nat n) = (2 ^ n)%nat.
Proof.
  change 2 with (Z.of_nat 2). rewrite <- Nat2Z.inj_pow. apply Nat2Z.id.
Qed.

Lemma pow2_pos (n : nat) : 0 < 2 ^ Z.of_nat n.
Proof. apply Z.pow_pos_nonneg; lia. Qed.

(** The leaf loop of [tree_hash_subtree], run over the whole range. *)
Lemma leaf_loop_whole (key : XMSS_PrivateKey) (start_idx : Z) (h : nat)
    (adrs : XMSS_Address) :
  (h <= 30)%nat ->
  exists st v,
    leaf_loop key start_idx 0 (2 ^ h) (initial_stack key h adrs) = Ret st /\
    s_level st = 1%nat /\
    length (s_nodes st) = (h + 1)%nat /\
    s_nodes st !! 0%nat = Some v /\
    s_adrs st = cursor h start_idx /\
    (domain_separated -> v = merkle_node key h start_idx).
Proof.
  intros Hh.
  destruct (leaf_loop_block key start_idx h 0 (initial_stack key h adrs))
    as (st1 & v & Hp & Hv & Hrun).
  { simpl. rewrite length_replicate. lia. }
  { simpl. rewrite !length_replicate. reflexivity. }
  { simpl. rewrite length_replicate. lia. }
  { left. reflexivity. }
  destruct Hp as (Hl & Hn & _ & _ & _ & Hv' & _ & Ha).
  simpl in Hl, Hn, Hv'. rewrite length_replicate in Hn.
  change (Z.of_nat 0) with 0 in Ha, Hv. rewrite Z.add_0_r in Ha, Hv.
  exists (push st1), v. rewrite Hrun. unfold settle.
  rewrite combine_stack_stop by (left; exact Hl).
  rewrite bind_Ret_l. simpl. rewrite Hl.
  repeat split; assumption.
Qed.

(** The sequential algorithm returns the Merkle node over its range and
    leaves the cursor at that node. *)
Lemma tree_hash_subtree_spec (key : XMSS_PrivateKey) (start_idx : Z) (h : nat)
    (adrs : XMSS_Address) :
  (h <= 30)%nat ->
  0 <= start_idx ->
  start_idx + 2 ^ Z.of_nat h < 2 ^ size_t_bits ->
  exists v,
    tree_hash_subtree key start_idx h adrs = Ret (v, cursor h start_idx) /\
    (domain_separated -> v = merkle_node key h start_idx).
Proof.
  intros Hh H0 Hfit. unfold tree_hash_subtree.
  rewrite shl_int_Ret by exact Hh. rewrite bind_Ret_l.
  pose proof (pow2_pos h) as Hp.
  rewrite to_size_t_small by lia.
  replace (2 ^ Z.of_nat h + start_idx - start_idx) with (2 ^ Z.of_nat h) by lia.
  rewrite pow2_to_nat.
  destruct (leaf_loop_whole key start_idx h adrs Hh)
    as (st & v & Hrun & Hl & _ & Hv & Ha & Hm).
  rewrite Hrun, bind_Ret_l, Hl, (at_Some _ _ _ Hv), bind_Ret_l, Ha.
  exists v. split; [reflexivity|exact Hm].
Qed.

Lemma bind_Ret_inv {A B : Type} (m : outcome A) (k : A -> outcome B) (b : B) :
  (x ← m; k x) = Ret b -> exists a, m = Ret a /\ k a = Ret b.
Proof.
  destruct m as [a| e |]; simpl; intros H; try discriminate.
  exists a. auto.
Qed.

(** The inner loop keeps the vectors' sizes and never raises the level. *)
Lemma combine_Ret (key : XMSS_PrivateKey) (lv : nat) :
  forall ns ls a st,
    combine key lv ns ls a = Ret st ->
    length (s_nodes st) = length ns /\
    length (s_node_levels st) = length ls /\
    (s_level st <= lv)%nat.
Proof.
  induction lv as [|below IH]; intros ns ls a st H; simpl in H.
  - inversion H. simpl. auto.
  - apply bind_Ret_inv in H as (top & _ & H).
    apply bind_Ret_inv in H as (next & _ & H).
    destruct (top =? next)%nat.
    + apply bind_Ret_inv in H as (l & _ & H).
      apply bind_Ret_inv in H as (r & _ & H).
      apply bind_Ret_inv in H as (ns' & Hns & H).
      apply bind_Ret_inv in H as (ls' & Hls & H).
      apply put_Ret in Hns as [_ ->]. apply put_Ret in Hls as [_ ->].
      apply IH in H as (Hn & Hl & Hle).
      rewrite length_insert in Hn. rewrite length_insert in Hl.
      repeat split; [exact Hn|exact Hl|lia].
    + inversion H. simpl. auto.
Qed.

(** A round of the leaf loop that returns has written its leaf inside the
    vectors, and keeps their sizes. *)
Lemma leaf_body_Ret (key : XMSS_PrivateKey) (i : Z) (st st' : stack) :
  leaf_body key i st = Ret st' ->
  (s_level st < length (s_nodes st))%nat /\
  (s_level st < length (s_node_levels st))%nat /\
  length (s_nodes st') = length (s_nodes st) /\
  length (s_node_levels st') = length (s_node_levels st).
Proof.
  unfold leaf_body. intros H.
  apply bind_Ret_inv in H as (ns & Hns & H).
  apply bind_Ret_inv in H as (ls & Hls & H).
  apply bind_Ret_inv in H as (st1 & Hc & H).
  apply put_Ret in Hns as [Hi ->]. apply put_Ret in Hls as [Hj ->].
  apply combine_Ret in Hc as (Hn & Hl & _).
  rewrite length_insert in Hn. rewrite length_insert in Hl.
  inversion H. simpl. auto.
Qed.

Lemma leaf_loop_Ret (key : XMSS_PrivateKey) (start_idx : Z) (n : nat) :
  forall first st st',
    leaf_loop key start_idx first n st = Ret st' ->
    length (s_nodes st') = length (s_nodes st) /\
    length (s_node_levels st') = length (s_node_levels st).
Proof.
  unfold leaf_loop.
  induction n as [|n IH]; intros first st st' H; simpl in H.
  - inversion H. auto.
  - apply bind_Ret_inv in H as (st1 & Hb & H).
    apply leaf_body_Ret in Hb as (_ & _ & Hn & Hl).
    apply IH in H as (Hn' & Hl'). split; congruence.
Qed.

(** The leaf node as the loop body computes it at leaf [i], from the
    cursor [adrs] it finds. *)
Definition leaf_from (key : XMSS_PrivateKey) (adrs : XMSS_Address) (i : Z) : bytes :=
  let ots := set_ots_address i (set_type OTS_Hash_Address adrs) in
  create_l_tree
    (generate_public_key (m_wots_priv_key key)
       (wots_at (m_wots_priv_key key) ots) ots)
    (set_ltree_address i (set_type LTree_Address ots))
    (public_seed key).

(** C7: for a target height of at most 30 and a leaf range that ends
    below [2^size_t_bits], [tree_hash_subtree] never leaves its two vectors
    of [target_node_height + 1] entries: it returns, so no access was
    outside them; before every round of the leaf loop the stack level is at most
    [target_node_height], and after the last it is at most
    [target_node_height + 1].  The inner loop stops when the stack holds
    the pending node only or the two topmost levels differ, and replaces
    the two topmost nodes by their parent when the levels agree.  At
    [target_node_height = 0] the result is the leaf itself. *)
Theorem tree_hash_subtree_stack_bounded (key : XMSS_PrivateKey) (start_idx : Z)
    (target_node_height : nat) (adrs : XMSS_Address) :
  (target_node_height <= 30)%nat ->
  0 <= start_idx ->
  start_idx + 2 ^ Z.of_nat target_node_height < 2 ^ size_t_bits ->
  (exists r, tree_hash_subtree key start_idx target_node_height adrs = Ret r) /\
  (forall k : nat, (k <= 2 ^ target_node_height)%nat ->
     exists st,
       leaf_loop key start_idx 0 k (initial_stack key target_node_height adrs)
         = Ret st /\
       length (s_nodes st) = (target_node_height + 1)%nat /\
       length (s_node_levels st) = (target_node_height + 1)%nat /\
       (s_level st <= target_node_height + 1)%nat /\
       ((k < 2 ^ target_node_height)%nat ->
        (s_level st <= target_node_height)%nat)) /\
  (forall st, s_level st = 0%nat -> combine_stack key st = Ret st) /\
  (forall st top next,
     s_node_levels st !! s_level st = Some top ->
     s_node_levels st !! (s_level st - 1)%nat = Some next ->
     top <> next ->
     combine_stack key st = Ret st) /\
  (forall st below t l r,
     s_level st = S below ->
     s_node_levels st !! S below = Some t ->
     s_node_levels st !! below = Some t ->
     s_nodes st !! below = Some l ->
     s_nodes st !! S below = Some r ->
     let a := set_tree_index (parent_index (get_tree_index (s_adrs st))) (s_adrs st) in
     combine_stack key st =
     combine_stack key
       (mkStack (<[below := randomize_tree_hash l r a (public_seed key)]> (s_nodes st))
                (<[below := u8 (t + 1)]> (s_node_levels st))
                below
                (set_tree_height (get_tree_height a + 1) a))) /\
  (target_node_height = 0%nat ->
   tree_hash_subtree key start_idx 0 adrs
     = Ret (leaf_from key adrs start_idx, cursor 0 start_idx)).
Proof.
  intros Hh H0 Hfit.
  destruct (tree_hash_subtree_spec key start_idx target_node_height adrs Hh H0 Hfit)
    as (v & Hv & _).
  split; [eexists; exact Hv|].
  split; [|split; [|split; [|split]]].
  - intros k Hk.
    destruct (leaf_loop_whole key start_idx target_node_height adrs Hh)
      as (st & v' & Hrun & Hl & Hn & _).
    replace (2 ^ target_node_height)%nat
      with (k + (2 ^ target_node_height - k))%nat in Hrun by lia.
    unfold leaf_loop in Hrun. rewrite for_loop_app in Hrun.
    apply bind_Ret_inv in Hrun as (sk & Hpre & Hrest).
    fold (leaf_loop key start_idx 0 k (initial_stack key target_node_height adrs)) in Hpre.
    exists sk. split; [exact Hpre|].
    pose proof (leaf_loop_Ret _ _ _ _ _ _ Hpre) as (Hnk & Hlk).
    simpl in Hnk, Hlk. rewrite length_replicate in Hnk.
    rewrite length_replicate in Hlk.
    split; [exact Hnk|]. split; [exact Hlk|].
    destruct (Nat.eq_dec k (2 ^ target_node_height)%nat) as [->|Hne].
    + rewrite Nat.sub_diag in Hrest. simpl in Hrest. inversion Hrest.
      split; lia.
    + assert (Hlt : (s_level sk < target_node_height + 1)%nat).
      { destruct (2 ^ target_node_height - k)%nat as [|m] eqn:Hm; [lia|].
        simpl in Hrest. apply bind_Ret_inv in Hrest as (s1 & Hb & _).
        apply leaf_body_Ret in Hb as (Hi & _). lia. }
      split; [lia|intros _; lia].
  - intros st Hl. apply combine_stack_stop. left. exact Hl.
  - intros st top next Ht Hn Hne. apply combine_stack_stop.
    right. exists top, next. auto.
  - intros st below t l r. apply combine_stack_merge.
  - intros ->. unfold tree_hash_subtree.
    rewrite shl_int_Ret by lia. rewrite bind_Ret_l.
    change (2 ^ Z.of_nat 0) with 1 in Hfit |- *.
    rewrite to_size_t_small by lia.
    replace (Z.to_nat (1 + start_idx - start_idx)) with 1%nat by lia.
    unfold leaf_loop, for_loop, leaf_body, initial_stack, leaf_from, cursor.
    cbn [s_level s_nodes s_node_levels s_adrs replicate Nat.add].
    unfold put. cbn [length Nat.ltb Nat.leb].
    rewrite !bind_Ret_l. cbn [combine s_level s_nodes s_node_levels s_adrs].
    rewrite !bind_Ret_l. cbn [s_level s_nodes s_node_levels s_adrs].
    change (u8 1) with 1%nat. cbn [at_ lookup list_lookup insert list_insert].
    rewrite bind_Ret_l. change (Z.of_nat 0) with 0.
    rewrite Z.add_0_r.
    unfold set_tree_index, set_tree_height, set_type, set_ltree_address,
      set_ots_address. cbn [get_type get_ots_address get_ltree_address
      get_tree_height get_tree_index tree_index_at].
    change (2 ^ 0) with 1. change (u32 0) with 0.
    replace (start_idx + 1 - 1) with start_idx by lia. reflexivity.
Qed.

(** *** The threaded algorithm *)

(** The rule for a [for] loop with an invariant. *)
Lemma for_loop_invariant {T : Type} (P : nat -> T -> Prop)
    (body : nat -> T -> outcome T) (n : nat) :
  forall i s,
    P i s ->
    (forall j s, (i <= j < i + n)%nat -> P j s ->
                 exists s', body j s = Ret s' /\ P (S j) s') ->
    exists s', for_loop body i n s = Ret s' /\ P (i + n)%nat s'.
Proof.
  induction n as [|n IH]; intros i s HP Hstep; simpl.
  - exists s. rewrite Nat.add_0_r. auto.
  - destruct (Hstep i s) as (s1 & Hb & HP1); [lia|exact HP|].
    rewrite Hb, bind_Ret_l.
    destruct (IH (S i) s1 HP1) as (s' & Hrun & HP').
    { intros j s2 Hj. apply Hstep. lia. }
    exists s'. split; [exact Hrun|].
    replace (i + S n)%nat with (S i + n)%nat by lia. exact HP'.
Qed.

(** Combining two sibling nodes under the address the threaded rounds
    build: the address of the left sibling with the tree height set to the
    siblings' height and the tree index to the parent index of the right
    sibling. *)
Lemma parent_step (key : XMSS_PrivateKey) (t : nat) (lo height : Z)
    (vl vr : bytes) (al ar : XMSS_Address) :
  get_type al = Hash_Tree_Address ->
  get_tree_index ar = tree_index_at t (lo + 2 ^ Z.of_nat t) ->
  height = Z.of_nat t ->
  (t <= 30)%nat ->
  let a := set_tree_index (parent_index (get_tree_index ar))
             (set_tree_height height al) in
  get_type a = Hash_Tree_Address /\
  get_tree_index a = tree_index_at (S t) lo /\
  (domain_separated ->
   vl = merkle_node key t lo ->
   vr = merkle_node key t (lo + 2 ^ Z.of_nat t) ->
   randomize_tree_hash vl vr a (public_seed key) = merkle_node key (S t) lo).
Proof.
  intros Hty Hidx -> Ht a.
  assert (Hi : get_tree_index a = tree_index_at (S t) lo).
  { subst a. unfold set_tree_index, set_tree_height.
    cbn [get_tree_index tree_index_at].
    rewrite u32_parent_index, Hidx. reflexivity. }
  split; [exact Hty|]. split; [exact Hi|].
  intros (_ & _ & _ & Hrth) -> ->. cbn [merkle_node].
  apply Hrth. split.
  - exact Hty.
  - subst a. unfold set_tree_index, set_tree_height, hash_tree_adrs.
    cbn [get_type get_tree_height get_tree_index]. rewrite Hty.
    cbn [get_type get_tree_height get_tree_index]. split.
    + apply u32_small. lia.
    + unfold set_tree_index, set_tree_height in Hi.
      cbn [get_tree_index] in Hi. exact Hi.
Qed.

Lemma pow2_nat_lt (u i : nat) : (i < 2 ^ u)%nat -> Z.of_nat i < 2 ^ Z.of_nat u.
Proof.
  intros Hi. apply Nat2Z.inj_lt in Hi. rewrite Nat2Z.inj_pow in Hi. exact Hi.
Qed.

Lemma pow2_nat_mono (u v : nat) : (u <= v)%nat -> (2 ^ u <= 2 ^ v)%nat.
Proof using Type. intros H. apply Nat.pow_le_mono_r; lia. Qed.

Section Threads.

Variable key : XMSS_PrivateKey.
Variable start_idx : Z.
(** The target node height and the split level. *)
Variables h s : nat.

Hypothesis split_le : (1 <= s <= h)%nat.
Hypothesis height_le : (h <= 30)%nat.
Hypothesis start_nonneg : 0 <= start_idx.
Hypothesis range_fits : start_idx + 2 ^ Z.of_nat h < 2 ^ size_t_bits.

(** The first leaf under node [i] of the layer that is [u] levels below
    the target node. *)
Definition node_start (u i : nat) : Z :=
  start_idx + Z.of_nat i * 2 ^ Z.of_nat (h - u).

(** Entry [i] of the two vectors holds node [i] of layer [u] and an
    address with that node's tree index. *)
Definition holds_node (u i : nat) (S : list bytes * list XMSS_Address) : Prop :=
  exists v a,
    S.1 !! i = Some v /\
    (domain_separated -> v = merkle_node key (h - u) (node_start u i)) /\
    S.2 !! i = Some a /\
    get_type a = Hash_Tree_Address /\
    get_tree_index a = tree_index_at (h - u) (node_start u i).

Definition layer (u : nat) (S : list bytes * list XMSS_Address) : Prop :=
  length S.1 = (2 ^ s)%nat /\
  length S.2 = (2 ^ s)%nat /\
  forall i, (i < 2 ^ u)%nat -> holds_node u i S.

Lemma pow2_split (u : nat) :
  (u <= h)%nat -> 2 ^ Z.of_nat h = 2 ^ Z.of_nat u * 2 ^ Z.of_nat (h - u).
Proof using Type*.
  intros Hu. rewrite <- Z.pow_add_r by lia. f_equal. lia.
Qed.

Lemma node_range (u i : nat) :
  (u <= h)%nat -> (i < 2 ^ u)%nat ->
  0 <= node_start u i /\
  node_start u i + 2 ^ Z.of_nat (h - u) <= start_idx + 2 ^ Z.of_nat h.
Proof using Type*.
  intros Hu Hi. unfold node_start. rewrite (pow2_split u Hu).
  apply pow2_nat_lt in Hi. pose proof (pow2_pos (h - u)). nia.
Qed.

Lemma node_start_children (L i : nat) :
  (S L <= h)%nat ->
  node_start (S L) (2 * i) = node_start L i /\
  node_start (S L) (2 * i + 1)
    = node_start L i + 2 ^ Z.of_nat (h - S L).
Proof using Type*.
  intros HL. unfold node_start.
  replace (h - L)%nat with (S (h - S L)) by lia.
  rewrite Nat2Z.inj_succ, Z.pow_succ_r by lia. split; nia.
Qed.

(** The first round: after the tasks [0, ..., n - 1] the first [n]
    entries hold the subtree roots. *)
Definition subtrees_done (n : nat) (S : list bytes * list XMSS_Address) : Prop :=
  length S.1 = (2 ^ s)%nat /\
  length S.2 = (2 ^ s)%nat /\
  forall i, (i < n)%nat -> holds_node s i S.

Lemma holds_node_other (u i j : nat) (S : list bytes * list XMSS_Address)
    (v : bytes) (a : XMSS_Address) :
  i <> j -> holds_node u i S -> holds_node u i (<[j := v]> S.1, <[j := a]> S.2).
Proof using Type*.
  intros Hne (v' & a' & Hv & Hm & Ha & Hty & Hidx).
  exists v', a'. simpl.
  rewrite !list_lookup_insert_ne by congruence. auto.
Qed.

Lemma subtree_task_step (j : nat) (S : list bytes * list XMSS_Address) :
  (j < 2 ^ s)%nat ->
  subtrees_done j S ->
  exists S',
    subtree_task key start_idx (2 ^ Z.of_nat (h - s)) (h - s) j S = Ret S' /\
    subtrees_done (Datatypes.S j) S'.
Proof using Type*.
  intros Hj (Hn & Ha & Hdone).
  destruct (lookup_lt_is_Some_2 S.2 j) as [a Hlk]; [lia|].
  unfold subtree_task. rewrite (at_Some _ _ _ Hlk), bind_Ret_l.
  fold (node_start s j).
  destruct (node_range s j) as [Hlo Hhi]; [lia|exact Hj|].
  pose proof (pow2_pos (h - s)) as Hp.
  rewrite to_size_t_small by lia.
  destruct (tree_hash_subtree_spec key (node_start s j) (h - s) a)
    as (v & Hrun & Hv); [lia|lia|lia|].
  rewrite Hrun, bind_Ret_l. cbn beta iota.
  rewrite (put_lt S.1), bind_Ret_l by lia.
  rewrite (put_lt S.2), bind_Ret_l by lia.
  eexists. split; [reflexivity|].
  split; [|split].
  - simpl. rewrite length_insert. exact Hn.
  - simpl. rewrite length_insert. exact Ha.
  - intros i Hi. destruct (Nat.eq_dec i j) as [->|Hne].
    + exists v, (cursor (h - s) (node_start s j)). simpl.
      rewrite !list_lookup_insert_eq by lia. auto.
    + apply holds_node_other; [exact Hne|]. apply Hdone. lia.
Qed.

Lemma subtrees_round (nodes : list bytes) (node_addresses : list XMSS_Address) :
  length nodes = (2 ^ s)%nat ->
  length node_addresses = (2 ^ s)%nat ->
  exists S',
    for_loop (subtree_task key start_idx (2 ^ Z.of_nat (h - s)) (h - s))
      0 (2 ^ s) (nodes, node_addresses) = Ret S' /\
    layer s S'.
Proof using Type*.
  intros Hn Ha.
  destruct (for_loop_invariant subtrees_done
              (subtree_task key start_idx (2 ^ Z.of_nat (h - s)) (h - s))
              (2 ^ s) 0 (nodes, node_addresses))
    as (S' & Hrun & HS').
  { split; [exact Hn|]. split; [exact Ha|]. intros i Hi. lia. }
  { intros j S Hj HS. apply subtree_task_step; [lia|exact HS]. }
  exists S'. split; [exact Hrun|]. exact HS'.
Qed.

(** A later round, at level [L]: after the tasks [0, ..., n - 1] the
    first [n] entries hold the nodes of layer [L], and the addresses
    from [n] on are those the round started with. *)
Definition level_done (L : nat) (S0 : list bytes * list XMSS_Address)
    (n : nat) (S : list bytes * list XMSS_Address) : Prop :=
  length S.1 = (2 ^ s)%nat /\
  length S.2 = (2 ^ s)%nat /\
  (forall i, (i < n)%nat -> holds_node L i S) /\
  (forall i, (n <= i)%nat -> S.2 !! i = S0.2 !! i).

Lemma level_task_step (L : nat) (S0 S : list bytes * list XMSS_Address) (j : nat) :
  (Datatypes.S L <= s)%nat ->
  layer (Datatypes.S L) S0 ->
  (j < 2 ^ L)%nat ->
  level_done L S0 j S ->
  exists S',
    level_task key h L (take (2 ^ Datatypes.S L) S0.1) j S = Ret S' /\
    level_done L S0 (Datatypes.S j) S'.
Proof using Type*.
  intros HL (Hn0 & Ha0 & Hlay) Hj (Hn & Ha & Hdone & Hrest).
  assert (Hpow : (2 ^ Datatypes.S L = 2 * 2 ^ L)%nat) by (simpl; lia).
  assert (Hmono : (2 ^ Datatypes.S L <= 2 ^ s)%nat) by (apply pow2_nat_mono; lia).
  destruct (Hlay (2 * j)%nat) as (vl & al & Hvl & Hml & Hal & Htl & Hil); [lia|].
  destruct (Hlay (2 * j + 1)%nat) as (vr & ar & Hvr & Hmr & Har & Htr & Hir); [lia|].
  destruct (Hlay j) as (_ & aj & _ & _ & Haj & Htj & _); [lia|].
  destruct (node_start_children L j) as [Hc0 Hc1]; [lia|].
  rewrite Hc0 in Hml. rewrite Hc1 in Hmr, Hir.
  unfold level_task.
  rewrite (at_Some S.2 j aj) by (rewrite Hrest by lia; exact Haj).
  rewrite bind_Ret_l.
  rewrite (put_lt S.2), bind_Ret_l by lia.
  rewrite (at_Some _ (2 * j + 1) ar)
    by (rewrite list_lookup_insert_ne by lia; rewrite Hrest by lia; exact Har).
  rewrite bind_Ret_l.
  rewrite (at_Some _ j _ (list_lookup_insert_eq S.2 j _ ltac:(lia))), bind_Ret_l.
  rewrite put_lt, bind_Ret_l by (rewrite length_insert; lia).
  rewrite (at_Some _ (2 * j) vl) by (rewrite lookup_take_lt by lia; exact Hvl).
  rewrite bind_Ret_l.
  rewrite (at_Some _ (2 * j + 1) vr) by (rewrite lookup_take_lt by lia; exact Hvr).
  rewrite bind_Ret_l.
  rewrite (put_lt S.1), bind_Ret_l by lia.
  destruct (parent_step key (h - Datatypes.S L) (node_start L j)
              (Z.of_nat h - (Z.of_nat L + 1)) vl vr aj ar Htj Hir)
    as (Hty & Hidx & Hm); [lia|lia|].
  eexists. split; [reflexivity|].
  split; [|split; [|split]].
  - simpl. rewrite length_insert. exact Hn.
  - simpl. rewrite !length_insert. exact Ha.
  - intros i Hi. destruct (Nat.eq_dec i j) as [->|Hne].
    + eexists _, _. simpl.
      rewrite !list_lookup_insert_eq by (rewrite ?length_insert; lia).
      replace (h - L)%nat with (Datatypes.S (h - Datatypes.S L)) by lia.
      split; [reflexivity|]. split; [|split; [reflexivity|]].
      * intros Hds. apply Hm; auto.
      * split; [exact Hty|exact Hidx].
    + destruct (Hdone i) as (v' & a' & Hv' & Hm' & Ha' & Hty' & Hidx'); [lia|].
      exists v', a'. simpl.
      rewrite !list_lookup_insert_ne by congruence. auto.
  - intros i Hi. simpl.
    rewrite !list_lookup_insert_ne by lia. apply Hrest. lia.
Qed.

Lemma level_round_layer (L : nat) (S0 : list bytes * list XMSS_Address) :
  (Datatypes.S L <= s)%nat ->
  layer (Datatypes.S L) S0 ->
  exists S', level_round key h L S0 = Ret S' /\ layer L S'.
Proof using Type*.
  intros HL Hlay. pose proof Hlay as (Hn0 & Ha0 & _).
  assert (Hmono : (2 ^ Datatypes.S L <= 2 ^ s)%nat) by (apply pow2_nat_mono; lia).
  unfold level_round.
  rewrite (shl_int_Ret (L + 1)), bind_Ret_l by lia.
  unfold slice.
  replace ((0 <=? 0) && (0 <=? 2 ^ Z.of_nat (L + 1))
           && (2 ^ Z.of_nat (L + 1) <=? Z.of_nat (length S0.1))) with true.
  2: { symmetry. rewrite !andb_true_iff, !Z.leb_le.
       pose proof (pow2_pos (L + 1)).
       repeat split; try lia.
       rewrite Hn0, Nat2Z.inj_pow. change (Z.of_nat 2) with 2.
       apply Z.pow_le_mono_r; lia. }
  rewrite bind_Ret_l.
  rewrite (shl_int_Ret L), bind_Ret_l by lia.
  rewrite Z.sub_0_r, !pow2_to_nat.
  change (Z.to_nat 0) with 0%nat. rewrite drop_0.
  replace (L + 1)%nat with (Datatypes.S L) by lia.
  destruct (for_loop_invariant (level_done L S0)
              (level_task key h L (take (2 ^ Datatypes.S L) S0.1))
              (2 ^ L) 0 S0)
    as (S' & Hrun & (Hn & Ha & Hdone & _)).
  { split; [exact Hn0|]. split; [exact Ha0|].
    split; [intros i Hi; lia|reflexivity]. }
  { intros j S Hj HS. apply level_task_step; [exact HL|exact Hlay|lia|exact HS]. }
  exists S'. split; [exact Hrun|].
  split; [exact Hn|]. split; [exact Ha|]. rewrite Nat.add_0_l in Hdone. exact Hdone.
Qed.

Lemma combine_levels_layer (u : nat) :
  forall S0,
    (1 <= u <= s)%nat ->
    layer u S0 ->
    exists S', combine_levels key h u S0 = Ret S' /\ layer 1 S'.
Proof using Type*.
  induction u as [|u IH]; intros S0 Hu Hlay; [lia|].
  destruct u as [|L].
  - exists S0. split; [reflexivity|exact Hlay].
  - cbn [combine_levels].
    destruct (level_round_layer (Datatypes.S L) S0) as (S1 & Hrun & Hlay1);
      [lia|exact Hlay|].
    rewrite Hrun, bind_Ret_l. apply IH; [lia|exact Hlay1].
Qed.

(** [tree_hash] with split level [s]: the threaded rounds produce the
    Merkle node over the whole range and leave the caller's address
    alone. *)
Lemma tree_hash_threads (adrs : XMSS_Address) :
  Nat.min h concurrency_log2 = s ->
  start_idx mod 2 ^ Z.of_nat h = 0 ->
  exists v,
    tree_hash key start_idx h adrs = Ret (v, adrs) /\
    (domain_separated -> v = merkle_node key h start_idx).
Proof using Type*.
  intros Hmin Halign. unfold tree_hash.
  rewrite (shl_int_Ret h), bind_Ret_l by lia.
  rewrite int_operand_pow2 by lia.
  rewrite Halign. change (0 =? 0) with true.
  rewrite BOTAN_ASSERT_true, bind_Ret_l.
  rewrite Hmin.
  replace (s =? 0)%nat with false by (symmetry; apply Nat.eqb_neq; lia).
  rewrite (shl_int_Ret s), bind_Ret_l by lia.
  pose proof (pow2_pos h) as Hph. pose proof (pow2_pos s) as Hps.
  assert (Hsh : 2 ^ Z.of_nat s <= 2 ^ Z.of_nat h)
    by (apply Z.pow_le_mono_r; lia).
  cbv zeta.
  rewrite (to_size_t_small (2 ^ Z.of_nat s)) by lia.
  rewrite (to_size_t_small (2 ^ Z.of_nat h + start_idx)) by lia.
  replace (2 ^ Z.of_nat h + start_idx - start_idx) with (2 ^ Z.of_nat h) by lia.
  rewrite to_size_t_small by lia.
  assert (Hdiv : 2 ^ Z.of_nat h / 2 ^ Z.of_nat s = 2 ^ Z.of_nat (h - s)).
  { rewrite (pow2_split s) by lia. rewrite Z.mul_comm. apply Z.div_mul. lia. }
  assert (Hmod : 2 ^ Z.of_nat h mod 2 ^ Z.of_nat s = 0).
  { rewrite (pow2_split s) by lia. rewrite Z.mul_comm. apply Z.mod_mul. lia. }
  rewrite Hdiv, Hmod. change (0 =? 0) with true.
  rewrite BOTAN_ASSERT_true, bind_Ret_l.
  rewrite pow2_to_nat, u8_small by lia.
  destruct (subtrees_round (replicate (2 ^ s) (zero_node key))
                           (replicate (2 ^ s) adrs))
    as (S1 & Hrun1 & Hlay1); [apply length_replicate|apply length_replicate|].
  rewrite Hrun1, bind_Ret_l.
  destruct (combine_levels_layer s S1) as (S2 & Hrun2 & Hlay2); [lia|exact Hlay1|].
  rewrite Hrun2, bind_Ret_l.
  destruct Hlay2 as (Hn & Ha & Hlay).
  destruct (Hlay 0%nat) as (vl & al & Hvl & Hml & Hal & Htl & Hil); [simpl; lia|].
  destruct (Hlay 1%nat) as (vr & ar & Hvr & Hmr & Har & Htr & Hir); [simpl; lia|].
  assert (Hone : (1 <= 2 ^ s)%nat) by (apply Nat.neq_0_lt_0, Nat.pow_nonzero; lia).
  assert (Hc0 : node_start 1 0 = start_idx) by (unfold node_start; simpl; lia).
  assert (Hc1 : node_start 1 1 = start_idx + 2 ^ Z.of_nat (h - 1))
    by (unfold node_start; lia).
  rewrite Hc0 in Hml. rewrite Hc1 in Hmr, Hir.
  rewrite (at_Some _ _ _ Hal), bind_Ret_l.
  rewrite (put_lt S2.2), bind_Ret_l by lia.
  rewrite (at_Some _ 1%nat ar)
    by (rewrite list_lookup_insert_ne by lia; exact Har).
  rewrite bind_Ret_l.
  rewrite (at_Some _ 0%nat _ (list_lookup_insert_eq S2.2 0 _ ltac:(lia))), bind_Ret_l.
  rewrite (at_Some _ _ _ Hvl), bind_Ret_l.
  rewrite (at_Some _ _ _ Hvr), bind_Ret_l.
  rewrite (put_lt S2.1), bind_Ret_l by lia.
  rewrite (at_Some _ 0%nat _ (list_lookup_insert_eq S2.1 0 _ ltac:(lia))), bind_Ret_l.
  destruct (parent_step key (h - 1) start_idx (Z.of_nat h - 1) vl vr al ar Htl Hir)
    as (_ & _ & Hm); [lia|lia|].
  eexists. split; [reflexivity|].
  intros Hds.
  transitivity (merkle_node key (S (h - 1)) start_idx);
    [apply Hm; auto | f_equal; lia].
Qed.

End Threads.

(** [tree_hash] at split level 0 is the sequential algorithm. *)
Lemma tree_hash_sequential (key : XMSS_PrivateKey) (start_idx : Z) (h : nat)
    (adrs : XMSS_Address) :
  (h <= 30)%nat ->
  Nat.min h concurrency_log2 = 0%nat ->
  start_idx mod 2 ^ Z.of_nat h = 0 ->
  tree_hash key start_idx h adrs = tree_hash_subtree key start_idx h adrs.
Proof.
  intros Hh Hmin Halign. unfold tree_hash.
  rewrite (shl_int_Ret h), bind_Ret_l by lia.
  rewrite int_operand_pow2 by lia.
  rewrite Halign. change (0 =? 0) with true.
  rewrite BOTAN_ASSERT_true, bind_Ret_l.
  rewrite Hmin. reflexivity.
Qed.

(** A misaligned start index fails the assertion. *)
Lemma tree_hash_misaligned (key : XMSS_PrivateKey) (start_idx : Z) (h : nat)
    (adrs : XMSS_Address) :
  (h <= 30)%nat ->
  start_idx mod 2 ^ Z.of_nat h <> 0 ->
  tree_hash key start_idx h adrs
    = Throw (Internal_Error "Start index must be divisible by 2^{target node height}.").
Proof.
  intros Hh Halign. unfold tree_hash.
  rewrite (shl_int_Ret h), bind_Ret_l by lia.
  rewrite int_operand_pow2 by lia.
  apply Z.eqb_neq in Halign. rewrite Halign, BOTAN_ASSERT_false. reflexivity.
Qed.

(** Whatever the split level, [tree_hash] returns the Merkle node over the
    range. *)
Lemma tree_hash_spec (key : XMSS_PrivateKey) (start_idx : Z) (h : nat)
    (adrs : XMSS_Address) :
  (h <= 30)%nat ->
  0 <= start_idx ->
  start_idx + 2 ^ Z.of_nat h < 2 ^ size_t_bits ->
  start_idx mod 2 ^ Z.of_nat h = 0 ->
  exists v a,
    tree_hash key start_idx h adrs = Ret (v, a) /\
    (domain_separated -> v = merkle_node key h start_idx).
Proof.
  intros Hh H0 Hfit Halign.
  destruct (Nat.eq_dec (Nat.min h concurrency_log2) 0%nat) as [Hz|Hnz].
  - rewrite tree_hash_sequential by assumption.
    destruct (tree_hash_subtree_spec key start_idx h adrs Hh H0 Hfit)
      as (v & Hrun & Hv).
    exists v, (cursor h start_idx). auto.
  - destruct (tree_hash_threads key start_idx h (Nat.min h concurrency_log2)
                ltac:(lia) Hh H0 Hfit adrs eq_refl Halign) as (v & Hrun & Hv).
    exists v, adrs. auto.
Qed.

(** The tree index of a node over an aligned range within the 32 bits of
    the address field is the number of the node in its layer. *)
Lemma tree_index_at_aligned (t : nat) :
  forall lo : Z,
    0 <= lo ->
    lo + 2 ^ Z.of_nat t <= 2 ^ 32 ->
    lo mod 2 ^ Z.of_nat t = 0 ->
    tree_index_at t lo = lo / 2 ^ Z.of_nat t.
Proof.
  induction t as [|t IH]; intros lo H0 H32 Halign.
  - simpl. rewrite Z.div_1_r. apply u32_small. simpl in H32. lia.
  - pose proof (pow2_pos t) as Hp.
    assert (Hs : 2 ^ Z.of_nat (S t) = 2 * 2 ^ Z.of_nat t)
      by (rewrite Nat2Z.inj_succ, Z.pow_succ_r by lia; reflexivity).
    rewrite Hs in *.
    apply Z.mod_divide in Halign; [|lia]. destruct Halign as [q Hq].
    assert (Hlo : lo + 2 ^ Z.of_nat t = (2 * q + 1) * 2 ^ Z.of_nat t) by lia.
    cbn [tree_index_at]. rewrite IH; [| lia | lia |].
    + rewrite Hlo, Z.div_mul by lia.
      replace lo with (q * (2 * 2 ^ Z.of_nat t)) by lia.
      rewrite Z.div_mul by lia.
      unfold parent_index. replace (2 * q + 1 - 1) with (q * 2) by lia.
      rewrite u32_small by nia.
      rewrite Z.shiftr_div_pow2 by lia. apply Z.div_mul. lia.
    + rewrite Hlo. apply Z.mod_mul. lia.
Qed.

(** *** Properties of [tree_hash] *)

(** C5: for a target height of at most 30, [tree_hash] asserts that the
    start index is divisible by [2^target_node_height]: when it is not, the
    call ends in an [Internal_Error] and returns nothing; when it is, and
    the leaf range ends below [2^size_t_bits], the call returns the Merkle
    node covering the leaves
    [[start_idx, start_idx + 2^target_node_height)]. *)
Theorem tree_hash_contract (key : XMSS_PrivateKey) (start_idx : Z)
    (target_node_height : nat) (adrs : XMSS_Address) :
  (target_node_height <= 30)%nat ->
  (start_idx mod 2 ^ Z.of_nat target_node_height <> 0 ->
   tree_hash key start_idx target_node_height adrs
     = Throw (Internal_Error
                "Start index must be divisible by 2^{target node height}.")) /\
  (start_idx mod 2 ^ Z.of_nat target_node_height = 0 ->
   0 <= start_idx ->
   start_idx + 2 ^ Z.of_nat target_node_height < 2 ^ size_t_bits ->
   domain_separated ->
   exists a,
     tree_hash key start_idx target_node_height adrs
       = Ret (merkle_node key target_node_height start_idx, a)).
Proof.
  intros Hh. split.
  - intros Halign. apply tree_hash_misaligned; assumption.
  - intros Halign H0 Hfit Hds.
    destruct (tree_hash_spec key start_idx target_node_height adrs Hh H0 Hfit Halign)
      as (v & a & Hrun & Hv).
    exists a. rewrite Hrun, (Hv Hds). reflexivity.
Qed.

(** C1: for a tree height of at most 6, an aligned start index and any
    split level [s] between 0 and the height, the threaded [tree_hash]
    returns the node that the sequential [tree_hash_subtree] returns on
    the same inputs. *)
Theorem tree_hash_parallel_equals_sequential (key : XMSS_PrivateKey)
    (start_idx : Z) (h s : nat) (adrs : XMSS_Address) :
  (h <= 6)%nat ->
  (s <= h)%nat ->
  Nat.min h concurrency_log2 = s ->
  0 <= start_idx ->
  start_idx + 2 ^ Z.of_nat h < 2 ^ size_t_bits ->
  start_idx mod 2 ^ Z.of_nat h = 0 ->
  domain_separated ->
  exists v a a',
    tree_hash key start_idx h adrs = Ret (v, a) /\
    tree_hash_subtree key start_idx h adrs = Ret (v, a').
Proof.
  intros Hh Hs Hmin H0 Hfit Halign Hds.
  assert (Hh30 : (h <= 30)%nat) by lia.
  destruct (tree_hash_spec key start_idx h adrs Hh30 H0 Hfit Halign)
    as (v & a & Hrun & Hv).
  destruct (tree_hash_subtree_spec key start_idx h adrs Hh30 H0 Hfit)
    as (v' & Hrun' & Hv').
  exists v, a, (cursor h start_idx). split; [exact Hrun|].
  rewrite Hrun', (Hv Hds), (Hv' Hds). reflexivity.
Qed.

(** *** More on the constructor from raw bytes *)

Lemma slice_Ret {A : Type} (v l : list A) (b e : Z) :
  slice v b e = Ret l ->
  0 <= b /\ b <= e /\ e <= Z.of_nat (length v) /\
  l = take (Z.to_nat (e - b)) (drop (Z.to_nat b) v) /\
  Z.of_nat (length l) = e - b.
Proof.
  unfold slice.
  destruct ((0 <=? b) && (b <=? e) && (e <=? Z.of_nat (length v))) eqn:Hc;
    [|discriminate].
  rewrite !andb_true_iff, !Z.leb_le in Hc. destruct Hc as [[Hb Hbe] He].
  intros H. inversion H. subst l.
  repeat split; try assumption.
  rewrite length_take, length_drop. lia.
Qed.

Lemma shl_ull_Ret (n b : Z) : shl_ull n = Ret b -> 0 <= n < 64 /\ b = 2 ^ n.
Proof.
  unfold shl_ull. destruct ((0 <=? n) && (n <? 64)) eqn:Hc; [|discriminate].
  rewrite andb_true_iff, Z.leb_le, Z.ltb_lt in Hc.
  intros H. inversion H. auto.
Qed.

Lemma size_t_assert_Ret (pk : XMSS_PublicKey) :
  size_t_assert pk = Ret tt -> index_width_ok pk.
Proof.
  unfold size_t_assert, BOTAN_ASSERT, index_width_ok.
  destruct (Z.leb_spec (ceil_div8 (tree_height (m_xmss_params pk))) sizeof_size_t);
    [auto|discriminate].
Qed.

(** What a run of the raw constructor that returns has gone through. *)
Lemma raw_key_Ret (raw : bytes) (k : XMSS_PrivateKey) :
  XMSS_PrivateKey_raw_key raw = Ret k ->
  exists pk field bound prf seed,
    XMSS_PublicKey_raw_key raw = Ret pk /\
    index_width_ok pk /\
    Z.of_nat (length raw) = size pk /\
    slice raw (XMSS_PublicKey_size pk) (XMSS_PublicKey_size pk + 8) = Ret field /\
    shl_ull (to_size_t (tree_height (m_xmss_params pk) - 1)) = Ret bound /\
    decode_unused_leaf field < bound /\
    slice raw (XMSS_PublicKey_size pk + 8)
      (XMSS_PublicKey_size pk + 8 + element_size (m_xmss_params pk)) = Ret prf /\
    slice raw (XMSS_PublicKey_size pk + 8 + element_size (m_xmss_params pk))
      (XMSS_PublicKey_size pk + 8 + element_size (m_xmss_params pk)
       + wots_element_size (m_wots_params pk)) = Ret seed /\
    k = mkPrivateKey pk
          (mkWOTSPrivateKey (wots_oid (m_wots_params pk)) (m_public_seed pk) seed)
          prf (to_size_t (decode_unused_leaf field)).
Proof.
  unfold XMSS_PrivateKey_raw_key. intros H.
  apply bind_Ret_inv in H as (pk & Hpk & H).
  apply bind_Ret_inv in H as ([] & Hassert & H).
  destruct (Z.eqb_spec (Z.of_nat (length raw)) (size pk)) as [Hlen|Hlen];
    simpl in H; [|discriminate].
  apply bind_Ret_inv in H as (field & Hfield & H).
  apply bind_Ret_inv in H as (bound & Hbound & H).
  destruct (Z.leb_spec bound (decode_unused_leaf field)) as [Hge|Hlt];
    [discriminate|].
  apply bind_Ret_inv in H as (prf & Hprf & H).
  apply bind_Ret_inv in H as (seed & Hseed & H).
  inversion H.
  exists pk, field, bound, prf, seed.
  repeat split; try assumption. apply size_t_assert_Ret. exact Hassert.
Qed.

(** Below the bound of a defined shift, the decoded index is a [size_t]. *)
Lemma decoded_index_fits (pk : XMSS_PublicKey) (field : bytes) (bound : Z) :
  index_width_ok pk ->
  1 <= tree_height (m_xmss_params pk) ->
  shl_ull (to_size_t (tree_height (m_xmss_params pk) - 1)) = Ret bound ->
  decode_unused_leaf field < bound ->
  bound = 2 ^ (tree_height (m_xmss_params pk) - 1) /\
  to_size_t (decode_unused_leaf field) = decode_unused_leaf field.
Proof.
  intros Hw Hh Hbound Hlt.
  apply shl_ull_Ret in Hbound as (Hn & ->).
  pose proof (index_width_height pk Hw) as HhW.
  assert (Hts : to_size_t (tree_height (m_xmss_params pk) - 1)
                = tree_height (m_xmss_params pk) - 1).
  { apply to_size_t_small. split; [lia|].
    apply Z.lt_le_trans with (2 ^ (tree_height (m_xmss_params pk) - 1)).
    - apply Z.pow_gt_lin_r; lia.
    - apply Z.pow_le_mono_r; lia. }
  rewrite Hts in Hn, Hlt |- *. split; [reflexivity|].
  pose proof (decode_unused_leaf_nonneg field) as Hnn.
  apply (leaf_index_fits pk); [lia|exact Hw|lia].
Qed.

(** X1: every key the raw constructor returns is fully initialised: its
    public part is what the base class read, the PRF seed has
    [element_size] bytes, the private seed has the one-time-signature
    parameters' [element_size] bytes, the buffer had exactly [size()] bytes,
    and the leaf index is the decoded one and lies below [1 << (h - 1)]. *)
Theorem raw_key_constructs_initialized (raw : bytes) (k : XMSS_PrivateKey) :
  XMSS_PrivateKey_raw_key raw = Ret k ->
  1 <= tree_height (m_xmss_params (public_key k)) ->
  XMSS_PublicKey_raw_key raw = Ret (public_key k) /\
  Z.of_nat (length raw) = size (public_key k) /\
  Z.of_nat (length (m_prf k)) = element_size (m_xmss_params (public_key k)) /\
  Z.of_nat (length (private_seed (m_wots_priv_key k)))
    = wots_element_size (m_wots_params (public_key k)) /\
  wots_public_seed (m_wots_priv_key k) = m_public_seed (public_key k) /\
  unused_leaf_index k
    = decode_unused_leaf (leaf_index_field raw (public_key k)) /\
  0 <= unused_leaf_index k < 2 ^ (tree_height (m_xmss_params (public_key k)) - 1).
Proof.
  intros H Hh.
  apply raw_key_Ret in H
    as (pk & field & bound & prf & seed & Hpk & Hw & Hlen & Hfield & Hbound
        & Hlt & Hprf & Hseed & ->).
  simpl in *.
  apply slice_Ret in Hfield as (Hp0 & _ & _ & Hfield & _).
  apply slice_Ret in Hprf as (_ & _ & _ & _ & Hprf).
  apply slice_Ret in Hseed as (_ & _ & _ & _ & Hseed).
  destruct (decoded_index_fits pk field bound Hw Hh Hbound Hlt) as (-> & Hfit).
  pose proof (decode_unused_leaf_nonneg field) as Hnn.
  assert (Hf : field = leaf_index_field raw pk).
  { rewrite Hfield. unfold leaf_index_field. f_equal. lia. }
  rewrite Hfit, <- Hf.
  repeat split; try assumption; lia.
Qed.

(** X2: with a [size_t] of [sizeof_size_t] bytes, the raw constructor ends
    in the [Internal_Error] of its index-width assertion exactly when
    [1 << (h - 1)] does not fit [size_t]; the buffer's length and leaf index
    play no part in that. *)
Theorem raw_key_index_width_checked (raw : bytes) (pk : XMSS_PublicKey) :
  XMSS_PublicKey_raw_key raw = Ret pk ->
  0 < sizeof_size_t ->
  1 <= tree_height (m_xmss_params pk) ->
  (XMSS_PrivateKey_raw_key raw
     = Throw (Internal_Error size_t_message)
   <-> 2 ^ size_t_bits <= 2 ^ (tree_height (m_xmss_params pk) - 1)).
Proof.
  intros Hpk Hs Hh. split.
  - intros H.
    destruct (Z.le_gt_cases (2 ^ size_t_bits)
                (2 ^ (tree_height (m_xmss_params pk) - 1))) as [Hle|Hgt];
      [exact Hle|exfalso].
    apply size_t_assert_iff_fits in Hgt; [|exact Hs|exact Hh].
    unfold XMSS_PrivateKey_raw_key in H. rewrite Hpk, bind_Ret_l, Hgt, bind_Ret_l in H.
    unfold slice, shl_ull in H.
    repeat first
      [ discriminate H
      | match type of H with
        | context [if ?c then _ else _] => destruct c; simpl in H
        end ].
  - intros Hle. apply (raw_key_index_width_refused raw pk Hpk Hs Hh Hle).
Qed.

(** *** Serialising what has been parsed *)

Lemma uint8_of_Z_eq (x : Z) (b : Byte.byte) :
  x mod 256 = Z_of_uint8 b -> uint8_of_Z x = b.
Proof.
  intros H. unfold uint8_of_Z. rewrite H. unfold Z_of_uint8.
  rewrite N2Z.id, Byte.of_to_N. reflexivity.
Qed.

Lemma byte_of_sum (hi v lo k : Z) :
  0 <= lo < k -> 0 < k -> 0 <= v < 256 ->
  ((hi * 256 + v) * k + lo) / k mod 256 = v.
Proof.
  intros Hlo Hk Hv.
  replace ((hi * 256 + v) * k + lo) with (lo + (hi * 256 + v) * k) by ring.
  rewrite Z.div_add by lia. rewrite (Z.div_small lo k) by lia.
  rewrite Z.add_0_l, Z.add_comm, Z.mod_add by lia.
  apply Z.mod_small. exact Hv.
Qed.

(** The eight index bytes are the big-endian digits of the value they
    decode to. *)
Lemma leaf_index_bytes_decode (field : bytes) :
  length field = 8%nat ->
  leaf_index_bytes (decode_unused_leaf field) = field.
Proof.
  intros Hlen.
  destruct field as [|b7 [|b6 [|b5 [|b4 [|b3 [|b2 [|b1 [|b0 [|x rest]]]]]]]]];
    try discriminate Hlen.
  unfold decode_unused_leaf. simpl fold_left.
  rewrite !decode_step by apply Z_of_uint8_range.
  pose proof (Z_of_uint8_range b7) as H7. pose proof (Z_of_uint8_range b6) as H6.
  pose proof (Z_of_uint8_range b5) as H5. pose proof (Z_of_uint8_range b4) as H4.
  pose proof (Z_of_uint8_range b3) as H3. pose proof (Z_of_uint8_range b2) as H2.
  pose proof (Z_of_uint8_range b1) as H1. pose proof (Z_of_uint8_range b0) as H0.
  set (v7 := Z_of_uint8 b7) in *. set (v6 := Z_of_uint8 b6) in *.
  set (v5 := Z_of_uint8 b5) in *. set (v4 := Z_of_uint8 b4) in *.
  set (v3 := Z_of_uint8 b3) in *. set (v2 := Z_of_uint8 b2) in *.
  set (v1 := Z_of_uint8 b1) in *. set (v0 := Z_of_uint8 b0) in *.
  change (2 ^ 64) with 18446744073709551616.
  repeat match goal with
         | |- context [(?a * 256) mod 18446744073709551616] =>
           rewrite (Z.mod_small (a * 256) 18446744073709551616) by lia
         end.
  unfold leaf_index_bytes, u64. change (2 ^ 64) with 18446744073709551616.
  rewrite Z.mod_small by lia.
  cbn [map]. rewrite !Z.shiftr_div_pow2 by lia.
  change (2 ^ (8 * 7)) with 72057594037927936.
  change (2 ^ (8 * 6)) with 281474976710656.
  change (2 ^ (8 * 5)) with 1099511627776.
  change (2 ^ (8 * 4)) with 4294967296.
  change (2 ^ (8 * 3)) with 16777216.
  change (2 ^ (8 * 2)) with 65536.
  change (2 ^ (8 * 1)) with 256.
  change (2 ^ (8 * 0)) with 1.
  repeat (apply f_equal2; [apply uint8_of_Z_eq|]); try reflexivity.
  - fold v7.
    transitivity ((((0) * 256 + v7) * 72057594037927936 + ((((((v6 * 256 + v5) * 256 + v4) * 256 + v3) * 256 + v2) * 256 + v1) * 256 + v0)) / 72057594037927936 mod 256);
      [f_equal; f_equal; ring | apply byte_of_sum; lia].
  - fold v6.
    transitivity ((((0 * 256 + v7) * 256 + v6) * 281474976710656 + (((((v5 * 256 + v4) * 256 + v3) * 256 + v2) * 256 + v1) * 256 + v0)) / 281474976710656 mod 256);
      [f_equal; f_equal; ring | apply byte_of_sum; lia].
  - fold v5.
    transitivity (((((0 * 256 + v7) * 256 + v6) * 256 + v5) * 1099511627776 + ((((v4 * 256 + v3) * 256 + v2) * 256 + v1) * 256 + v0)) / 1099511627776 mod 256);
      [f_equal; f_equal; ring | apply byte_of_sum; lia].
  - fold v4.
    transitivity ((((((0 * 256 + v7) * 256 + v6) * 256 + v5) * 256 + v4) * 4294967296 + (((v3 * 256 + v2) * 256 + v1) * 256 + v0)) / 4294967296 mod 256);
      [f_equal; f_equal; ring | apply byte_of_sum; lia].
  - fold v3.
    transitivity (((((((0 * 256 + v7) * 256 + v6) * 256 + v5) * 256 + v4) * 256 + v3) * 16777216 + ((v2 * 256 + v1) * 256 + v0)) / 16777216 mod 256);
      [f_equal; f_equal; ring | apply byte_of_sum; lia].
  - fold v2.
    transitivity ((((((((0 * 256 + v7) * 256 + v6) * 256 + v5) * 256 + v4) * 256 + v3) * 256 + v2) * 65536 + (v1 * 256 + v0)) / 65536 mod 256);
      [f_equal; f_equal; ring | apply byte_of_sum; lia].
  - fold v1.
    transitivity (((((((((0 * 256 + v7) * 256 + v6) * 256 + v5) * 256 + v4) * 256 + v3) * 256 + v2) * 256 + v1) * 256 + (v0)) / 256 mod 256);
      [f_equal; f_equal; ring | apply byte_of_sum; lia].
  - fold v0.
    transitivity ((((((((((0 * 256 + v7) * 256 + v6) * 256 + v5) * 256 + v4) * 256 + v3) * 256 + v2) * 256 + v1) * 256 + v0) * 1 + (0)) / 1 mod 256);
      [f_equal; f_equal; ring | apply byte_of_sum; lia].
Qed.

(** X3: parsing and then serialising gives the buffer back: for every key
    [k] the raw constructor returns from [raw], [raw_private_key k] is
    [raw], provided the base class writes the public key as the bytes it
    was read from and both element sizes agree. *)
Theorem raw_private_key_of_parsed (raw : bytes) (k : XMSS_PrivateKey) :
  XMSS_PrivateKey_raw_key raw = Ret k ->
  1 <= tree_height (m_xmss_params (public_key k)) ->
  wots_element_size (m_wots_params (public_key k))
    = element_size (m_xmss_params (public_key k)) ->
  raw_public_key (public_key k)
    = take (Z.to_nat (XMSS_PublicKey_size (public_key k))) raw ->
  raw_private_key k = raw.
Proof.
  intros H Hh Hwn Hpub.
  apply raw_key_Ret in H
    as (pk & field & bound & prf & seed & Hpk & Hw & Hlen & Hfield & Hbound
        & Hlt & Hprf & Hseed & ->).
  cbn [public_key m_prf m_wots_priv_key private_seed unused_leaf_index] in *.
  destruct (decoded_index_fits pk field bound Hw Hh Hbound Hlt) as (_ & Hidx).
  apply slice_Ret in Hfield as (Hp0 & _ & _ & Hfield & Hflen).
  apply slice_Ret in Hprf as (_ & Hn0 & _ & Hprf & _).
  apply slice_Ret in Hseed as (_ & _ & Hend & Hseed & _).
  pose proof (index_width_height pk Hw) as HhW.
  assert (Hexact : Z.of_nat (length raw)
                   = XMSS_PublicKey_size pk + 8 + 2 * element_size (m_xmss_params pk)).
  { unfold size, to_size_t in Hlen.
    assert (Hpos : 0 < 2 ^ size_t_bits) by (apply Z.pow_pos_nonneg; lia).
    pose proof (Z.mod_le (XMSS_PublicKey_size pk + 8
                          + 2 * element_size (m_xmss_params pk))
                  (2 ^ size_t_bits) ltac:(lia) Hpos).
    lia. }
  destruct (raw_key_split raw (XMSS_PublicKey_size pk)
              (element_size (m_xmss_params pk)) Hp0 ltac:(lia) Hexact)
    as (Hsplit & _ & _ & _ & Hslen).
  rewrite raw_private_key_layout.
  cbn [public_key m_prf m_wots_priv_key private_seed unused_leaf_index].
  rewrite Hidx, leaf_index_bytes_decode by lia.
  rewrite Hpub, Hfield, Hprf, Hseed, Hwn.
  rewrite Hsplit at 5. repeat f_equal; try lia.
  rewrite take_ge; [f_equal; lia|].
  rewrite length_drop in Hslen |- *. lia.
Qed.

(** X4: the serialisation of a fully initialised key is [size()] bytes
    long, when the base class writes [XMSS_PublicKey::size()] bytes. *)
Theorem raw_private_key_length (k : XMSS_PrivateKey) :
  valid_key k ->
  Z.of_nat (length (raw_public_key (public_key k)))
    = XMSS_PublicKey_size (public_key k) ->
  Z.of_nat (length (raw_private_key k)) = size (public_key k).
Proof.
  intros ((Hs0 & Hn0 & Hwn & Hfit) & Hh & Hw & Hprf & Hseed & Hidx) Hlen.
  rewrite raw_private_key_layout, !length_app.
  unfold size. rewrite to_size_t_small by lia.
  unfold leaf_index_bytes. cbn [map length]. lia.
Qed.

(** X5: [raw_private_key] writes any leaf index, but the raw constructor
    refuses to read one back that is [1 << (h - 1)] or more: serialising a
    key whose leaf index has reached the bound and parsing the bytes ends in
    the bounds [Integrity_Failure]. *)
Theorem raw_private_key_exhausted_refused (k : XMSS_PrivateKey) :
  well_sized (public_key k) ->
  1 <= tree_height (m_xmss_params (public_key k)) <= 64 ->
  index_width_ok (public_key k) ->
  Z.of_nat (length (m_prf k)) = element_size (m_xmss_params (public_key k)) ->
  Z.of_nat (length (private_seed (m_wots_priv_key k)))
    = element_size (m_xmss_params (public_key k)) ->
  (forall rest, XMSS_PublicKey_raw_key (raw_public_key (public_key k) ++ rest)
                = Ret (public_key k)) ->
  Z.of_nat (length (raw_public_key (public_key k)))
    = XMSS_PublicKey_size (public_key k) ->
  2 ^ (tree_height (m_xmss_params (public_key k)) - 1) <= unused_leaf_index k
    < 2 ^ 64 ->
  XMSS_PrivateKey_raw_key (raw_private_key k)
    = Throw (Integrity_Failure "XMSS private key leaf index out of bounds.").
Proof.
  intros Hws Hh Hw Hprf Hseed Hrt Hlen Hidx.
  rewrite (raw_key_fields (raw_private_key k) (raw_public_key (public_key k))
             (leaf_index_bytes (unused_leaf_index k)) (m_prf k)
             (private_seed (m_wots_priv_key k)) (public_key k));
    try assumption; try reflexivity.
  - rewrite decode_leaf_index_bytes. unfold u64.
    assert (Hp : 0 < 2 ^ (tree_height (m_xmss_params (public_key k)) - 1))
      by (apply Z.pow_pos_nonneg; lia).
    rewrite Z.mod_small by lia.
    replace (_ <=? unused_leaf_index k) with true
      by (symmetry; apply Z.leb_le; lia).
    reflexivity.
  - rewrite raw_private_key_layout. apply Hrt.
  - apply raw_private_key_layout.
Qed.

(** *** The leaf index registry *)

(** The process-wide [XMSS_Index_Registry] is declared outside the
    sources: [get] maps the two seeds to the shared counter of the key. *)
Variable Leaf_Index : Type.
Variable index_registry_get : bytes -> bytes -> Leaf_Index.

(** [XMSS_PrivateKey::recover_global_leaf_index] *)
Definition recover_global_leaf_index (k : XMSS_PrivateKey) : outcome Leaf_Index :=
  _ ← BOTAN_ASSERT
        ((Z.of_nat (length (private_seed (m_wots_priv_key k)))
          =? element_size (m_xmss_params (public_key k)))
         && (Z.of_nat (length (m_prf k))
             =? element_size (m_xmss_params (public_key k))))
        "Trying to retrieve index for partially initialized key.";
  Ret (index_registry_get (private_seed (m_wots_priv_key k)) (m_prf k)).

(** X6: every key the raw constructor returns passes the assertion of
    [recover_global_leaf_index] and gets the counter registered for its two
    seeds, when both element sizes agree; the same key with an empty private
    seed fails the assertion. *)
Theorem recover_global_leaf_index_of_parsed (raw : bytes) (k : XMSS_PrivateKey) :
  XMSS_PrivateKey_raw_key raw = Ret k ->
  wots_element_size (m_wots_params (public_key k))
    = element_size (m_xmss_params (public_key k)) ->
  recover_global_leaf_index k
    = Ret (index_registry_get (private_seed (m_wots_priv_key k)) (m_prf k)) /\
  (0 < element_size (m_xmss_params (public_key k)) ->
   recover_global_leaf_index
     (mkPrivateKey (public_key k)
        (mkWOTSPrivateKey (wots_oid (m_wots_params (public_key k)))
           (m_public_seed (public_key k)) [])
        (m_prf k) 0)
   = Throw (Internal_Error "Trying to retrieve index for partially initialized key.")).
Proof.
  intros H Hwn.
  apply raw_key_Ret in H
    as (pk & field & bound & prf & seed & Hpk & Hw & Hlen & Hfield & Hbound
        & Hlt & Hprf & Hseed & ->).
  cbn [public_key m_prf m_wots_priv_key private_seed unused_leaf_index] in *.
  apply slice_Ret in Hprf as (_ & _ & _ & _ & Hprf).
  apply slice_Ret in Hseed as (_ & _ & _ & _ & Hseed).
  unfold recover_global_leaf_index.
  cbn [public_key m_prf m_wots_priv_key private_seed].
  split.
  - replace (Z.of_nat (length seed) =? element_size (m_xmss_params pk)) with true
      by (symmetry; apply Z.eqb_eq; lia).
    replace (Z.of_nat (length prf) =? element_size (m_xmss_params pk)) with true
      by (symmetry; apply Z.eqb_eq; lia).
    reflexivity.
  - intros Hn.
    replace (Z.of_nat (length (@nil Byte.byte)) =? element_size (m_xmss_params pk))
      with false by (symmetry; apply Z.eqb_neq; simpl; lia).
    reflexivity.
Qed.

(** *** More on the tree hash *)

Lemma cursor_aligned (h : nat) (start_idx : Z) :
  0 <= start_idx ->
  start_idx + 2 ^ Z.of_nat h <= 2 ^ 32 ->
  start_idx mod 2 ^ Z.of_nat h = 0 ->
  cursor h start_idx
    = mkAddress Hash_Tree_Address
        (start_idx + 2 ^ Z.of_nat h - 1) (start_idx + 2 ^ Z.of_nat h - 1)
        (Z.of_nat h) (start_idx / 2 ^ Z.of_nat h).
Proof.
  intros H0 H32 Halign. unfold cursor. pose proof (pow2_pos h) as Hp.
  rewrite u32_small by lia.
  rewrite tree_index_at_aligned by assumption. reflexivity.
Qed.

(** X7: what [tree_hash] does to the address it takes by reference depends
    on the split level: at split level 0 the address comes back as the
    hash-tree address of the target node, with the OTS and L-tree addresses
    of the last leaf; at any other split level the threads work on copies
    and the address comes back as it went in. *)
Theorem tree_hash_address_effect (key : XMSS_PrivateKey) (start_idx : Z)
    (h : nat) (adrs : XMSS_Address) :
  (h <= 30)%nat ->
  0 <= start_idx ->
  start_idx + 2 ^ Z.of_nat h < 2 ^ size_t_bits ->
  start_idx + 2 ^ Z.of_nat h <= 2 ^ 32 ->
  start_idx mod 2 ^ Z.of_nat h = 0 ->
  exists v,
    tree_hash key start_idx h adrs
    = Ret (v,
           if (Nat.min h concurrency_log2 =? 0)%nat
           then mkAddress Hash_Tree_Address
                  (start_idx + 2 ^ Z.of_nat h - 1) (start_idx + 2 ^ Z.of_nat h - 1)
                  (Z.of_nat h) (start_idx / 2 ^ Z.of_nat h)
           else adrs).
Proof.
  intros Hh H0 Hfit H32 Halign.
  destruct (Nat.eqb_spec (Nat.min h concurrency_log2) 0) as [Hz|Hnz].
  - rewrite tree_hash_sequential by assumption.
    destruct (tree_hash_subtree_spec key start_idx h adrs Hh H0 Hfit)
      as (v & Hrun & _).
    exists v. rewrite Hrun, cursor_aligned by assumption. reflexivity.
  - destruct (tree_hash_threads key start_idx h (Nat.min h concurrency_log2)
                ltac:(lia) Hh H0 Hfit adrs eq_refl Halign) as (v & Hrun & _).
    exists v. exact Hrun.
Qed.

Lemma aligned_halves (h : nat) (start_idx : Z) :
  start_idx mod 2 ^ Z.of_nat (S h) = 0 ->
  start_idx mod 2 ^ Z.of_nat h = 0 /\
  (start_idx + 2 ^ Z.of_nat h) mod 2 ^ Z.of_nat h = 0.
Proof.
  intros Halign. pose proof (pow2_pos h) as Hp.
  assert (Hs : 2 ^ Z.of_nat (S h) = 2 * 2 ^ Z.of_nat h)
    by (rewrite Nat2Z.inj_succ, Z.pow_succ_r by lia; reflexivity).
  rewrite Hs in Halign. apply Z.mod_divide in Halign; [|lia].
  destruct Halign as [q Hq].
  assert (H1 : start_idx mod 2 ^ Z.of_nat h = 0).
  { replace start_idx with ((q * 2) * 2 ^ Z.of_nat h) by lia.
    apply Z.mod_mul. lia. }
  split; [exact H1|].
  replace (start_idx + 2 ^ Z.of_nat h) with ((q * 2 + 1) * 2 ^ Z.of_nat h) by lia.
  apply Z.mod_mul. lia.
Qed.

(** X8: tree hashes compose: the node of height [h + 1] over an aligned
    range is [randomize_tree_hash] of the nodes of height [h] over its two
    halves, under the hash-tree address with tree height [h] and the tree
    index of the parent. *)
Theorem tree_hash_of_halves (key : XMSS_PrivateKey) (start_idx : Z) (h : nat)
    (adrs adrs_left adrs_right : XMSS_Address) :
  (S h <= 30)%nat ->
  0 <= start_idx ->
  start_idx + 2 ^ Z.of_nat (S h) < 2 ^ size_t_bits ->
  start_idx + 2 ^ Z.of_nat (S h) <= 2 ^ 32 ->
  start_idx mod 2 ^ Z.of_nat (S h) = 0 ->
  domain_separated ->
  exists left right a a_left a_right,
    tree_hash key start_idx h adrs_left = Ret (left, a_left) /\
    tree_hash key (start_idx + 2 ^ Z.of_nat h) h adrs_right = Ret (right, a_right) /\
    tree_hash key start_idx (S h) adrs
    = Ret (randomize_tree_hash left right
             (hash_tree_adrs (Z.of_nat h) (start_idx / 2 ^ Z.of_nat (S h)))
             (public_seed key),
           a).
Proof.
  intros Hh H0 Hfit H32 Halign Hds.
  pose proof (pow2_pos h) as Hp.
  assert (Hs : 2 ^ Z.of_nat (S h) = 2 * 2 ^ Z.of_nat h)
    by (rewrite Nat2Z.inj_succ, Z.pow_succ_r by lia; reflexivity).
  destruct (aligned_halves h start_idx Halign) as [Hal Har].
  destruct (tree_hash_spec key start_idx h adrs_left)
    as (l & al & Hl & Hvl); [lia|lia|lia|exact Hal|].
  destruct (tree_hash_spec key (start_idx + 2 ^ Z.of_nat h) h adrs_right)
    as (r & ar & Hr & Hvr); [lia|lia|lia|exact Har|].
  destruct (tree_hash_spec key start_idx (S h) adrs)
    as (v & a & Hv & Hvv); [lia|lia|lia|exact Halign|].
  exists l, r, a, al, ar. split; [exact Hl|]. split; [exact Hr|].
  rewrite Hv, (Hvv Hds), (Hvl Hds), (Hvr Hds). cbn [merkle_node].
  rewrite <- (tree_index_at_aligned (S h) start_idx) by assumption.
  reflexivity.
Qed.

(** X9: the end of the leaf range is computed in [size_t].  When
    [start_idx + 2^target_node_height] reaches [2^size_t_bits] it wraps
    around, the leaf loop of [tree_hash_subtree] does not run, and the
    result is read at [nodes[level - 1]] with [level = 0], outside the
    vector. *)
Theorem tree_hash_subtree_range_wraps (key : XMSS_PrivateKey) (start_idx : Z)
    (target_node_height : nat) (adrs : XMSS_Address) :
  (target_node_height <= 30)%nat ->
  0 <= start_idx < 2 ^ size_t_bits ->
  2 ^ size_t_bits <= start_idx + 2 ^ Z.of_nat target_node_height ->
  tree_hash_subtree key start_idx target_node_height adrs = Undefined.
Proof.
  intros Hh Hs Hwrap. unfold tree_hash_subtree.
  rewrite shl_int_Ret, bind_Ret_l by exact Hh.
  pose proof (pow2_pos target_node_height) as Hp.
  assert (Hlast : to_size_t (2 ^ Z.of_nat target_node_height + start_idx) <= start_idx).
  { unfold to_size_t.
    destruct (Z.lt_ge_cases (2 ^ Z.of_nat target_node_height) (2 ^ size_t_bits))
      as [Hlt|Hge].
    - replace (2 ^ Z.of_nat target_node_height + start_idx)
        with (2 ^ Z.of_nat target_node_height + start_idx - 2 ^ size_t_bits
              + 1 * 2 ^ size_t_bits) by ring.
      rewrite Z.mod_add by lia. rewrite Z.mod_small by lia. lia.
    - assert (HW : 0 <= size_t_bits).
      { destruct (Z.lt_ge_cases size_t_bits 0) as [Hneg|Hpos]; [|exact Hpos].
        rewrite (Z.pow_neg_r 2 size_t_bits Hneg) in Hs. lia. }
      assert (HhW : size_t_bits <= Z.of_nat target_node_height)
        by (apply (Z.pow_le_mono_r_iff 2); lia).
      replace (2 ^ Z.of_nat target_node_height)
        with (2 ^ (Z.of_nat target_node_height - size_t_bits) * 2 ^ size_t_bits)
        by (rewrite <- Z.pow_add_r by lia; f_equal; lia).
      rewrite Z.add_comm, Z.mod_add, Z.mod_small by lia. lia. }
  replace (Z.to_nat (to_size_t (2 ^ Z.of_nat target_node_height + start_idx) - start_idx))
    with 0%nat by lia.
  reflexivity.
Qed.

(** *** More on the constructor from a random source *)

(** The tree of a key is that of its one-time-signature key and its public
    seed. *)
Lemma merkle_node_ext (k k' : XMSS_PrivateKey) (t : nat) :
  m_wots_priv_key k = m_wots_priv_key k' ->
  public_seed k = public_seed k' ->
  forall lo, merkle_node k t lo = merkle_node k' t lo.
Proof.
  intros Hw Hs. induction t as [|t IH]; intros lo; cbn [merkle_node].
  - unfold leaf_node. rewrite Hw, Hs. reflexivity.
  - rewrite !IH, Hs. reflexivity.
Qed.

(** X10: when the base class has set up the public key and the tree is one
    [tree_hash] can cover, the constructor from a random source returns a
    key whose two seeds are the next two draws from the random source, in
    the order private seed, PRF seed, whose leaf index is 0, whose public
    seed is the base class's, and whose root is the Merkle node over all
    [2^h] leaves of the key's own tree. *)
Theorem private_key_rng_root (xmss_algo_id : Z) (rng rng1 : RNG)
    (pk : XMSS_PublicKey) :
  XMSS_PublicKey_rng xmss_algo_id rng = Ret (pk, rng1) ->
  let h := Z.to_nat (tree_height (m_xmss_params pk)) in
  let seed := random_vec rng1 (wots_element_size (m_wots_params pk)) in
  let prf := random_vec seed.2 (element_size (m_xmss_params pk)) in
  (h <= 30)%nat ->
  2 ^ Z.of_nat h < 2 ^ size_t_bits ->
  domain_separated ->
  exists key,
    XMSS_PrivateKey_rng xmss_algo_id rng = Ret (key, prf.2) /\
    private_seed (m_wots_priv_key key) = seed.1 /\
    m_prf key = prf.1 /\
    unused_leaf_index key = 0 /\
    m_xmss_params (public_key key) = m_xmss_params pk /\
    m_public_seed (public_key key) = m_public_seed pk /\
    m_root (public_key key) = merkle_node key h 0.
Proof.
  intros Hpk h seed prf Hh Hfit Hds.
  unfold XMSS_PrivateKey_rng. rewrite Hpk, bind_Ret_l. cbn beta iota.
  fold seed. destruct seed as [s rng2] eqn:Es. cbn [fst snd] in prf.
  fold prf. destruct prf as [p rng3] eqn:Ep. fold h.
  set (key0 := mkPrivateKey pk
                 (mkWOTSPrivateKey (wots_oid (m_wots_params pk)) (m_public_seed pk) s)
                 p 0).
  pose proof (pow2_pos h) as Hp.
  destruct (tree_hash_spec key0 0 h default_address) as (v & a & Hrun & Hv);
    [exact Hh|lia|lia|apply Z.mod_0_l; lia|].
  rewrite Hrun, bind_Ret_l. cbn beta iota.
  exists (key_set_root v key0). cbn [fst snd].
  repeat split.
  cbn [key_set_root public_key set_root m_root].
  rewrite (Hv Hds). apply merkle_node_ext; reflexivity.
Qed.

(** *** The index-width check and the two constructors *)




End PrivateKey.

End XMSS.

(** ** A small instance

    A platform with a 64-bit [size_t], two parameter sets with two-byte
    elements (tree heights 4 and 20), a one-byte OID in front of the raw
    public key, and a checksum over the words of the address in place of the
    hash functions.  The instance makes the assumptions of the theorems
    above concrete and lets the embedded code run. *)

Module Instance.
Import XMSS.

Definition params (o : Z) : XMSS_Parameters :=
  mkParameters o (if o =? 2 then 20 else 4) 2.

Definition wots_params (o : Z) : XMSS_WOTS_Parameters :=
  mkWOTSParameters o 2.

Definition public_key_raw_key (raw : bytes) : outcome XMSS_PublicKey :=
  match raw with
  | [] => Throw (Integrity_Failure "XMSS signature OID can not be extracted.")
  | o :: rest =>
    if (length rest <? 4)%nat
    then Throw (Integrity_Failure "Invalid XMSS public key size detected.")
    else Ret (mkPublicKey (params (Z_of_uint8 o)) (wots_params (Z_of_uint8 o))
                (take 2 rest) (take 2 (drop 2 rest)))
  end.

Definition public_key_size (pk : XMSS_PublicKey) : Z :=
  1 + 2 * element_size (m_xmss_params pk).

Definition public_key_bytes (pk : XMSS_PublicKey) : bytes :=
  uint8_of_Z (oid (m_xmss_params pk)) :: m_root pk ++ m_public_seed pk.

(** A counter in place of the random source. *)
Definition random_vec (rng : Z) (n : Z) : bytes * Z :=
  (replicate (Z.to_nat n) (uint8_of_Z rng), rng + 1).

Definition public_key_rng (o : Z) (rng : Z) : outcome (XMSS_PublicKey * Z) :=
  let '(seed, rng) := random_vec rng 2 in
  Ret (mkPublicKey (params o) (wots_params o) [Byte.x00; Byte.x00] seed, rng).

(** The words of an address that belong to its type. *)
Definition adrs_words (a : XMSS_Address) : list Z :=
  match get_type a with
  | OTS_Hash_Address => [0; get_ots_address a; 0; 0]
  | LTree_Address => [1; get_ltree_address a; 0; 0]
  | Hash_Tree_Address => [2; 0; get_tree_height a; get_tree_index a]
  end.

Definition checksum (input : list Z) : bytes :=
  let d := fold_left (fun acc w => (acc * 31 + w) mod 65521) input 7 in
  [uint8_of_Z (d / 256); uint8_of_Z d].

Definition wots_at (wk : XMSS_WOTS_PrivateKey) (a : XMSS_Address) : list bytes :=
  [checksum (map Z_of_uint8 (private_seed wk) ++ adrs_words a)].

Definition generate_public_key (wk : XMSS_WOTS_PrivateKey) (sk : list bytes)
    (a : XMSS_Address) : list bytes :=
  map (fun x => checksum (map Z_of_uint8 (x ++ wots_public_seed wk) ++ adrs_words a)) sk.

Definition create_l_tree (pk : list bytes) (a : XMSS_Address) (seed : bytes) : bytes :=
  checksum (map Z_of_uint8 (concat pk ++ seed) ++ adrs_words a).

Definition randomize_tree_hash (l r : bytes) (a : XMSS_Address) (seed : bytes) : bytes :=
  checksum (map Z_of_uint8 (l ++ r ++ seed) ++ adrs_words a).

Lemma same_domain_words (a a' : XMSS_Address) :
  same_domain a a' -> adrs_words a = adrs_words a'.
Proof.
  unfold same_domain, adrs_words. intros [Hty H]. rewrite <- Hty.
  destruct (get_type a).
  - rewrite H. reflexivity.
  - rewrite H. reflexivity.
  - destruct H as [-> ->]. reflexivity.
Qed.

Lemma instance_domain_separated :
  domain_separated wots_at generate_public_key create_l_tree randomize_tree_hash.
Proof.
  repeat split; intros;
    unfold wots_at, generate_public_key, create_l_tree, randomize_tree_hash;
    rewrite (same_domain_words a a') by assumption; reflexivity.
Qed.

(** A key of the parameter set with tree height 4, leaf index 5. *)
Definition a_public_key : XMSS_PublicKey :=
  mkPublicKey (params 1) (wots_params 1)
              [Byte.x0a; Byte.x0b] [Byte.x0c; Byte.x0d].

Definition a_key : XMSS_PrivateKey :=
  mkPrivateKey a_public_key
    (mkWOTSPrivateKey 1 [Byte.x0c; Byte.x0d] [Byte.x21; Byte.x22])
    [Byte.x11; Byte.x12] 5.

(** A raw key with the leaf index [idx] in its last index byte. *)
Definition a_raw_key (idx : Byte.byte) : bytes :=
  [Byte.x01; Byte.x0a; Byte.x0b; Byte.x0c; Byte.x0d;
   Byte.x00; Byte.x00; Byte.x00; Byte.x00; Byte.x00; Byte.x00; Byte.x00; idx;
   Byte.x11; Byte.x12; Byte.x21; Byte.x22].

Example raw_private_key_a_key :
  raw_private_key public_key_bytes a_key = a_raw_key Byte.x05.
Proof. reflexivity. Qed.

Example tree_hash_split_levels :
  map (fun c => tree_hash 8 c wots_at generate_public_key create_l_tree
                  randomize_tree_hash a_key 8 3 default_address)
      [0; 1; 2; 3; 4]%nat
  = map (fun a => Ret ([Byte.x6e; Byte.xb4], a))
      [cursor 3 8; default_address; default_address; default_address;
       default_address].
Proof. vm_compute. reflexivity. Qed.

(** The theorems at this instance. *)

Lemma a_key_valid : valid_key 8 public_key_size a_key.
Proof.
  vm_compute. repeat split; try reflexivity; intros H; discriminate H.
Qed.

Lemma a_public_key_well_sized : well_sized 8 public_key_size a_public_key.
Proof. vm_compute. repeat split; try reflexivity; intros H; discriminate H. Qed.

Lemma a_public_key_index_width_ok : index_width_ok 8 a_public_key.
Proof. vm_compute. intros H; discriminate H. Qed.

Lemma tree_hash_parallel_equals_sequential_witness :
  exists v a a',
    tree_hash 8 1 wots_at generate_public_key create_l_tree randomize_tree_hash
      a_key 4 2 default_address = Ret (v, a) /\
    tree_hash_subtree 8 wots_at generate_public_key create_l_tree
      randomize_tree_hash a_key 4 2 default_address = Ret (v, a').
Proof.
  apply (tree_hash_parallel_equals_sequential 8 1 wots_at generate_public_key
           create_l_tree randomize_tree_hash a_key 4 2 1 default_address).
  - lia.
  - lia.
  - reflexivity.
  - lia.
  - vm_compute. reflexivity.
  - reflexivity.
  - exact instance_domain_separated.
Defined.

Lemma tree_hash_contract_witness :
  tree_hash 8 1 wots_at generate_public_key create_l_tree randomize_tree_hash
    a_key 3 2 default_address
    = Throw (Internal_Error
               "Start index must be divisible by 2^{target node height}.")
  /\
  exists a,
    tree_hash 8 1 wots_at generate_public_key create_l_tree randomize_tree_hash
      a_key 4 2 default_address
    = Ret (merkle_node wots_at generate_public_key create_l_tree
             randomize_tree_hash a_key 2 4, a).
Proof.
  split.
  - apply (tree_hash_contract 8 1 wots_at generate_public_key create_l_tree
             randomize_tree_hash a_key 3 2 default_address).
    + lia.
    + vm_compute. discriminate.
  - apply (tree_hash_contract 8 1 wots_at generate_public_key create_l_tree
             randomize_tree_hash a_key 4 2 default_address).
    + lia.
    + reflexivity.
    + lia.
    + vm_compute. reflexivity.
    + exact instance_domain_separated.
Defined.

Lemma tree_hash_subtree_stack_bounded_witness :
  (exists r,
     tree_hash_subtree 8 wots_at generate_public_key create_l_tree
       randomize_tree_hash a_key 4 2 default_address = Ret r) /\
  (forall k : nat, (k <= 4)%nat ->
     exists st,
       leaf_loop wots_at generate_public_key create_l_tree randomize_tree_hash
         a_key 4 0 k (initial_stack a_key 2 default_address) = Ret st /\
       (s_level st <= 3)%nat).
Proof.
  pose proof (tree_hash_subtree_stack_bounded 8 wots_at generate_public_key
                create_l_tree randomize_tree_hash a_key 4 2 default_address)
    as H.
  destruct H as (Hret & Hloop & _).
  - lia.
  - lia.
  - vm_compute. reflexivity.
  - split; [exact Hret|].
    intros k Hk. destruct (Hloop k Hk) as (st & Hrun & _ & _ & Hlv & _).
    exists st. split; [exact Hrun|exact Hlv].
Defined.

Lemma raw_private_key_round_trip_witness :
  exists k',
    XMSS_PrivateKey_raw_key 8 public_key_raw_key public_key_size
      (raw_private_key public_key_bytes a_key) = Ret k' /\
    public_key k' = public_key a_key /\
    m_prf k' = m_prf a_key /\
    private_seed (m_wots_priv_key k') = private_seed (m_wots_priv_key a_key) /\
    unused_leaf_index k' = unused_leaf_index a_key.
Proof.
  apply (raw_private_key_round_trip 8 public_key_raw_key public_key_size
           public_key_bytes a_key).
  - exact a_key_valid.
  - intros rest. reflexivity.
  - reflexivity.
Defined.

Lemma leaf_index_bound_enforced_witness :
  XMSS_PrivateKey_raw_key 8 public_key_raw_key public_key_size (a_raw_key Byte.x08)
    = Throw (Integrity_Failure "XMSS private key leaf index out of bounds.")
  /\
  exists k,
    XMSS_PrivateKey_raw_key 8 public_key_raw_key public_key_size (a_raw_key Byte.x07)
      = Ret k /\
    unused_leaf_index k = 7 /\ public_key k = a_public_key.
Proof.
  split.
  - apply (leaf_index_bound_enforced 8 public_key_raw_key public_key_size
             (a_raw_key Byte.x08) a_public_key).
    + reflexivity.
    + exact a_public_key_well_sized.
    + vm_compute. split; intros H; discriminate H.
    + exact a_public_key_index_width_ok.
    + reflexivity.
    + vm_compute. reflexivity.
  - apply (leaf_index_bound_enforced 8 public_key_raw_key public_key_size
             (a_raw_key Byte.x07) a_public_key).
    + reflexivity.
    + exact a_public_key_well_sized.
    + vm_compute. split; intros H; discriminate H.
    + exact a_public_key_index_width_ok.
    + reflexivity.
    + vm_compute. reflexivity.
Defined.

Lemma raw_key_size_enforced_witness :
  XMSS_PrivateKey_raw_key 8 public_key_raw_key public_key_size
    (removelast (a_raw_key Byte.x05))
    = Throw (Integrity_Failure "Invalid XMSS private key size detected.")
  /\
  XMSS_PrivateKey_raw_key 8 public_key_raw_key public_key_size
    (a_raw_key Byte.x05 ++ [Byte.x00])
    = Throw (Integrity_Failure "Invalid XMSS private key size detected.").
Proof.
  split.
  - apply (raw_key_size_enforced 8 public_key_raw_key public_key_size
             (removelast (a_raw_key Byte.x05)) a_public_key).
    + reflexivity.
    + vm_compute. discriminate.
    + exact a_public_key_index_width_ok.
  - apply (raw_key_size_enforced 8 public_key_raw_key public_key_size
             (a_raw_key Byte.x05 ++ [Byte.x00]) a_public_key).
    + reflexivity.
    + vm_compute. discriminate.
    + exact a_public_key_index_width_ok.
Defined.

(** On 64 bits the constructor from a random source builds the key and
    computes its root. *)
Example private_key_rng_64_bit :
  XMSS_PrivateKey_rng 8 1 Z random_vec public_key_rng wots_at generate_public_key
    create_l_tree randomize_tree_hash 1 0
  = Ret (mkPrivateKey
           (mkPublicKey (params 1) (wots_params 1)
              (merkle_node wots_at generate_public_key create_l_tree
                 randomize_tree_hash
                 (mkPrivateKey
                    (mkPublicKey (params 1) (wots_params 1)
                       [Byte.x00; Byte.x00] [Byte.x00; Byte.x00])
                    (mkWOTSPrivateKey 1 [Byte.x00; Byte.x00] [Byte.x01; Byte.x01])
                    [Byte.x02; Byte.x02] 0)
                 4 0)
              [Byte.x00; Byte.x00])
           (mkWOTSPrivateKey 1 [Byte.x00; Byte.x00] [Byte.x01; Byte.x01])
           [Byte.x02; Byte.x02] 0,
         3).
Proof. vm_compute. reflexivity. Qed.

(** A raw key of the parameter set with tree height 20. *)
Definition a_tall_raw_key : bytes :=
  [Byte.x02; Byte.x0a; Byte.x0b; Byte.x0c; Byte.x0d;
   Byte.x00; Byte.x00; Byte.x00; Byte.x00; Byte.x00; Byte.x00; Byte.x00; Byte.x05;
   Byte.x11; Byte.x12; Byte.x21; Byte.x22].

(** On 64 bits, two aligned start indices outside the range of the
    contract: with [target_node_height = 31], [1 << 31] is [INT_MIN], the
    assertion takes the start index modulo [2^64 - 2^31] and throws although
    [2^31] divides the start index; and when the leaf range ends at [2^64],
    its end wraps around to 0 and no node is returned. *)
Lemma tree_hash_contract_counterexample :
  2 ^ 31 mod 2 ^ Z.of_nat 31 = 0 /\
  tree_hash 8 1 wots_at generate_public_key create_l_tree randomize_tree_hash
    a_key (2 ^ 31) 31 default_address
    = Throw (Internal_Error
               "Start index must be divisible by 2^{target node height}.") /\
  (2 ^ 64 - 4) mod 2 ^ Z.of_nat 2 = 0 /\
  tree_hash 8 1 wots_at generate_public_key create_l_tree randomize_tree_hash
    a_key (2 ^ 64 - 4) 2 default_address
    = Undefined.
Proof. repeat split; vm_compute; reflexivity. Qed.

(** On 64 bits, the four leaves from [2^64 - 4] on: the end of the range
    wraps around to 0, the leaf loop runs no round, the stack level stays 0
    and the result is read at [nodes[level - 1]], outside the vector. *)
Lemma tree_hash_subtree_stack_bounded_counterexample :
  Z.to_nat (to_size_t 8 (2 ^ Z.of_nat 2 + (2 ^ 64 - 4)) - (2 ^ 64 - 4)) = 0%nat /\
  s_level (initial_stack a_key 2 default_address) = 0%nat /\
  tree_hash_subtree 8 wots_at generate_public_key create_l_tree
    randomize_tree_hash a_key (2 ^ 64 - 4) 2 default_address
    = Undefined.
Proof. repeat split; vm_compute; reflexivity. Qed.


(** The further theorems at this instance. *)

Lemma raw_key_constructs_initialized_witness :
  public_key_raw_key (a_raw_key Byte.x05) = Ret (public_key a_key) /\
  Z.of_nat (length (a_raw_key Byte.x05)) = size 8 public_key_size (public_key a_key) /\
  Z.of_nat (length (m_prf a_key)) = element_size (m_xmss_params (public_key a_key)) /\
  Z.of_nat (length (private_seed (m_wots_priv_key a_key)))
    = wots_element_size (m_wots_params (public_key a_key)) /\
  wots_public_seed (m_wots_priv_key a_key) = m_public_seed (public_key a_key) /\
  unused_leaf_index a_key
    = decode_unused_leaf
        (leaf_index_field public_key_size (a_raw_key Byte.x05) (public_key a_key)) /\
  0 <= unused_leaf_index a_key
    < 2 ^ (tree_height (m_xmss_params (public_key a_key)) - 1).
Proof.
  apply (raw_key_constructs_initialized 8 public_key_raw_key public_key_size
           (a_raw_key Byte.x05) a_key).
  - reflexivity.
  - vm_compute. intros H; discriminate H.
Defined.

Lemma raw_key_index_width_checked_witness :
  XMSS_PrivateKey_raw_key 2 public_key_raw_key public_key_size a_tall_raw_key
    = Throw (Internal_Error size_t_message)
  <-> 2 ^ size_t_bits 2 <= 2 ^ (20 - 1).
Proof.
  apply (raw_key_index_width_checked 2 public_key_raw_key public_key_size
           a_tall_raw_key
           (mkPublicKey (params 2) (wots_params 2)
              [Byte.x0a; Byte.x0b] [Byte.x0c; Byte.x0d])).
  - reflexivity.
  - lia.
  - vm_compute. intros H; discriminate H.
Defined.

Lemma raw_private_key_of_parsed_witness :
  raw_private_key public_key_bytes a_key = a_raw_key Byte.x05.
Proof.
  apply (raw_private_key_of_parsed 8 public_key_raw_key public_key_size
           public_key_bytes (a_raw_key Byte.x05) a_key).
  - reflexivity.
  - vm_compute. intros H; discriminate H.
  - reflexivity.
  - reflexivity.
Defined.

Lemma raw_private_key_length_witness :
  Z.of_nat (length (raw_private_key public_key_bytes a_key))
  = size 8 public_key_size (public_key a_key).
Proof.
  apply (raw_private_key_length 8 public_key_size public_key_bytes a_key).
  - exact a_key_valid.
  - reflexivity.
Defined.

(** [a_key] with all eight leaves of its bound used up. *)
Definition an_exhausted_key : XMSS_PrivateKey :=
  mkPrivateKey a_public_key
    (mkWOTSPrivateKey 1 [Byte.x0c; Byte.x0d] [Byte.x21; Byte.x22])
    [Byte.x11; Byte.x12] 8.

Lemma raw_private_key_exhausted_refused_witness :
  XMSS_PrivateKey_raw_key 8 public_key_raw_key public_key_size
    (raw_private_key public_key_bytes an_exhausted_key)
  = Throw (Integrity_Failure "XMSS private key leaf index out of bounds.").
Proof.
  apply (raw_private_key_exhausted_refused 8 public_key_raw_key public_key_size
           public_key_bytes an_exhausted_key).
  - exact a_public_key_well_sized.
  - vm_compute. split; intros H; discriminate H.
  - exact a_public_key_index_width_ok.
  - reflexivity.
  - reflexivity.
  - intros rest. reflexivity.
  - reflexivity.
  - vm_compute. split; [intros H; discriminate H|reflexivity].
Defined.

Lemma recover_global_leaf_index_of_parsed_witness :
  recover_global_leaf_index (bytes * bytes) pair a_key
    = Ret (private_seed (m_wots_priv_key a_key), m_prf a_key) /\
  (0 < element_size (m_xmss_params (public_key a_key)) ->
   recover_global_leaf_index (bytes * bytes) pair
     (mkPrivateKey (public_key a_key)
        (mkWOTSPrivateKey (wots_oid (m_wots_params (public_key a_key)))
           (m_public_seed (public_key a_key)) [])
        (m_prf a_key) 0)
   = Throw (Internal_Error "Trying to retrieve index for partially initialized key.")).
Proof.
  apply (recover_global_leaf_index_of_parsed 8 public_key_raw_key public_key_size
           (bytes * bytes)%type pair (a_raw_key Byte.x05) a_key).
  - reflexivity.
  - reflexivity.
Defined.

Lemma tree_hash_address_effect_witness :
  (exists v,
     tree_hash 8 0 wots_at generate_public_key create_l_tree randomize_tree_hash
       a_key 8 3 default_address
     = Ret (v, mkAddress Hash_Tree_Address 15 15 3 1)) /\
  (exists v,
     tree_hash 8 2 wots_at generate_public_key create_l_tree randomize_tree_hash
       a_key 8 3 default_address
     = Ret (v, default_address)).
Proof.
  split.
  - apply (tree_hash_address_effect 8 0 wots_at generate_public_key create_l_tree
             randomize_tree_hash a_key 8 3 default_address).
    + lia.
    + lia.
    + vm_compute. reflexivity.
    + vm_compute. intros H; discriminate H.
    + reflexivity.
  - apply (tree_hash_address_effect 8 2 wots_at generate_public_key create_l_tree
             randomize_tree_hash a_key 8 3 default_address).
    + lia.
    + lia.
    + vm_compute. reflexivity.
    + vm_compute. intros H; discriminate H.
    + reflexivity.
Defined.

Lemma tree_hash_of_halves_witness :
  exists left right a a_left a_right,
    tree_hash 8 1 wots_at generate_public_key create_l_tree randomize_tree_hash
      a_key 8 2 default_address = Ret (left, a_left) /\
    tree_hash 8 1 wots_at generate_public_key create_l_tree randomize_tree_hash
      a_key (8 + 2 ^ Z.of_nat 2) 2 default_address = Ret (right, a_right) /\
    tree_hash 8 1 wots_at generate_public_key create_l_tree randomize_tree_hash
      a_key 8 3 default_address
    = Ret (randomize_tree_hash left right
             (hash_tree_adrs (Z.of_nat 2) (8 / 2 ^ Z.of_nat 3))
             (public_seed a_key),
           a).
Proof.
  apply (tree_hash_of_halves 8 1 wots_at generate_public_key create_l_tree
           randomize_tree_hash a_key 8 2 default_address default_address
           default_address).
  - lia.
  - lia.
  - vm_compute. reflexivity.
  - vm_compute. intros H; discriminate H.
  - reflexivity.
  - exact instance_domain_separated.
Defined.

Lemma tree_hash_subtree_range_wraps_witness :
  tree_hash_subtree 2 wots_at generate_public_key create_l_tree
    randomize_tree_hash a_key 0 20 default_address = Undefined.
Proof.
  apply (tree_hash_subtree_range_wraps 2 wots_at generate_public_key
           create_l_tree randomize_tree_hash a_key 0 20 default_address).
  - lia.
  - vm_compute. split; [intros H; discriminate H|reflexivity].
  - vm_compute. intros H; discriminate H.
Defined.

Lemma private_key_rng_root_witness :
  exists key,
    XMSS_PrivateKey_rng 8 1 Z random_vec public_key_rng wots_at
      generate_public_key create_l_tree randomize_tree_hash 1 0 = Ret (key, 3) /\
    private_seed (m_wots_priv_key key) = [Byte.x01; Byte.x01] /\
    m_prf key = [Byte.x02; Byte.x02] /\
    unused_leaf_index key = 0 /\
    m_xmss_params (public_key key) = params 1 /\
    m_public_seed (public_key key) = [Byte.x00; Byte.x00] /\
    m_root (public_key key)
      = merkle_node wots_at generate_public_key create_l_tree
          randomize_tree_hash key 4 0.
Proof.
  apply (private_key_rng_root 8 1 Z random_vec public_key_rng wots_at
           generate_public_key create_l_tree randomize_tree_hash 1 0 1
           (mkPublicKey (params 1) (wots_params 1)
              [Byte.x00; Byte.x00] [Byte.x00; Byte.x00])).
  - reflexivity.
  - vm_compute. lia.
  - vm_compute. reflexivity.
  - exact instance_domain_separated.
Defined.

End Instance.
